(** * The OpenAI request dispatcher of MLflow

    A shallow embedding of
    [mlflow/openai/api_request_parallel_processor.py]: the status tracker,
    the request object with its [call_api] method, and the dispatch loop
    of [process_api_requests], together with the loop of the LangChain
    sibling [mlflow/langchain/api_request_parallel_processor.py]; then
    the cost estimator [num_tokens_consumed_from_request] of the same
    file and, from [mlflow/openai/utils.py], the two dictionary helpers
    and the token holder [_OAITokenHolder].

    Modelling choices.
    - Python integers are [Z].  The two per-minute ceilings are taken as
      integers (their defaults are [3_500] and [90_000]).
    - Readings of [time.time()] are exact rationals ([Q]); [int(x)] is
      truncation toward zero.
    - The thread pool is the list of submitted calls that have not
      finished yet; a call may finish at any moment and in any order.  One
      execution of [call_api] is one atomic event: the executor is joined
      when the [with] block is left, before the counters and the result
      list are read.
    - The loop body is cut in two at the point where it reads the
      in-progress counter, so that a call submitted in a tick may finish
      before that same tick tests for termination.
    - The cool-down pause and the idle sleep at the end of the body change
      no variable; they only let time pass, which shows in the clock
      readings of the events that follow. *)

From Stdlib Require Import ZArith QArith Qround Lia.
From stdpp Require Import base list sorting strings pretty gmap.

Local Open Scope Z_scope.

(** ** Exceptions *)

Inductive ExceptionClass :=
  | RateLimitError
  | Timeout
  | APIError
  | APIConnectionError
  | ServiceUnavailableError
  | InvalidRequestError
  | MlflowException
  | TypeError
  | NotImplementedError
  | OtherException.

Record Exception := mkException {
  exc_class : ExceptionClass;
  exc_message : string
}.

(** ** StatusTracker *)

Record StatusTracker := mkStatusTracker {
  num_tasks_started : Z;
  num_tasks_in_progress : Z;
  num_tasks_succeeded : Z;
  num_tasks_failed : Z;
  num_rate_limit_errors : Z;
  num_api_errors : Z;
  num_other_errors : Z;
  time_of_last_rate_limit_error : Q;
  error : option Exception
}.

Definition StatusTracker_init : StatusTracker :=
  mkStatusTracker 0 0 0 0 0 0 0 (0 # 1) None.

Definition start_task (st : StatusTracker) : StatusTracker :=
  mkStatusTracker
    (num_tasks_started st + 1) (num_tasks_in_progress st + 1)
    (num_tasks_succeeded st) (num_tasks_failed st)
    (num_rate_limit_errors st) (num_api_errors st) (num_other_errors st)
    (time_of_last_rate_limit_error st) (error st).

Definition complete_task (success : bool) (st : StatusTracker) : StatusTracker :=
  mkStatusTracker
    (num_tasks_started st) (num_tasks_in_progress st - 1)
    (if success then num_tasks_succeeded st + 1 else num_tasks_succeeded st)
    (if success then num_tasks_failed st else num_tasks_failed st + 1)
    (num_rate_limit_errors st) (num_api_errors st) (num_other_errors st)
    (time_of_last_rate_limit_error st) (error st).

Definition increment_num_rate_limit_errors (st : StatusTracker) : StatusTracker :=
  mkStatusTracker
    (num_tasks_started st) (num_tasks_in_progress st)
    (num_tasks_succeeded st) (num_tasks_failed st)
    (num_rate_limit_errors st + 1) (num_api_errors st) (num_other_errors st)
    (time_of_last_rate_limit_error st) (error st).

Definition increment_num_api_errors (st : StatusTracker) : StatusTracker :=
  mkStatusTracker
    (num_tasks_started st) (num_tasks_in_progress st)
    (num_tasks_succeeded st) (num_tasks_failed st)
    (num_rate_limit_errors st) (num_api_errors st + 1) (num_other_errors st)
    (time_of_last_rate_limit_error st) (error st).

(** The two attributes that are assigned from outside the class. *)
Definition set_time_of_last_rate_limit_error (t : Q) (st : StatusTracker) : StatusTracker :=
  mkStatusTracker
    (num_tasks_started st) (num_tasks_in_progress st)
    (num_tasks_succeeded st) (num_tasks_failed st)
    (num_rate_limit_errors st) (num_api_errors st) (num_other_errors st)
    t (error st).

Definition set_error (e : Exception) (st : StatusTracker) : StatusTracker :=
  mkStatusTracker
    (num_tasks_started st) (num_tasks_in_progress st)
    (num_tasks_succeeded st) (num_tasks_failed st)
    (num_rate_limit_errors st) (num_api_errors st) (num_other_errors st)
    (time_of_last_rate_limit_error st) (Some e).

(** The methods of the class, as operations to be replayed. *)
Inductive TrackerOp :=
  | OpStartTask
  | OpCompleteTask (success : bool)
  | OpIncrementRateLimitErrors
  | OpIncrementApiErrors.

Definition tracker_apply (st : StatusTracker) (op : TrackerOp) : StatusTracker :=
  match op with
  | OpStartTask => start_task st
  | OpCompleteTask b => complete_task b st
  | OpIncrementRateLimitErrors => increment_num_rate_limit_errors st
  | OpIncrementApiErrors => increment_num_api_errors st
  end.

Definition tracker_replay (ops : list TrackerOp) : StatusTracker :=
  fold_left tracker_apply ops StatusTracker_init.

Definition tracker_balanced (st : StatusTracker) : Prop :=
  num_tasks_started st
  = num_tasks_in_progress st + num_tasks_succeeded st + num_tasks_failed st.

(** ** Wall-clock arithmetic *)

(** [int(x)] on a float: the fractional part is dropped. *)
Definition py_int (x : Q) : Z := Z.quot (Qnum x) (Z.pos (Qden x)).

(** [int(ceiling * seconds_since_update / 60.0)] *)
Definition refill (ceiling : Z) (seconds_since_update : Q) : Z :=
  py_int (inject_Z ceiling * seconds_since_update / inject_Z 60)%Q.

(** [min(available + int(ceiling * seconds / 60.0), ceiling)] *)
Definition refilled (available ceiling : Z) (seconds_since_update : Q) : Z :=
  Z.min (available + refill ceiling seconds_since_update) ceiling.

(** ** Requests, log records, run parameters *)

Section Dispatcher.

Context {RequestJson Response : Type}.

Record APIRequest := mkAPIRequest {
  index : Z;
  request_json : RequestJson;
  token_consumption : Z;
  attempts_left : Z;
  start_time : Q;
  last_log_time : Q
}.

Definition with_attempts_left (a : Z) (r : APIRequest) : APIRequest :=
  mkAPIRequest (index r) (request_json r) (token_consumption r) a
    (start_time r) (last_log_time r).

Definition with_last_log_time (t : Q) (r : APIRequest) : APIRequest :=
  mkAPIRequest (index r) (request_json r) (token_consumption r) (attempts_left r)
    (start_time r) t.

(** What [self.task.create(...)] does: it returns a response or raises. *)
Inductive Outcome :=
  | Returned (response : Response)
  | Raised (e : Exception).

(** The records written to [_logger] that tell the story of one request. *)
Inductive LogRecord :=
  | LogStarted (i : Z)
  | LogSucceeded (i : Z)
  | LogFailed (i : Z) (e : Exception)
  | LogRetryWarning
  | LogTenMinutes
  | LogRetrying (i : Z).

Record Params := mkParams {
  requests : list RequestJson;
  max_requests_per_minute : Z;
  max_tokens_per_minute : Z;
  max_attempts : Z;
  throw_original_error : bool
}.

(** [enumerate(requests)] *)
Fixpoint enumerate_from (i : Z) (l : list RequestJson) : list (Z * RequestJson) :=
  match l with
  | [] => []
  | x :: l' => (i, x) :: enumerate_from (i + 1) l'
  end.

Definition enumerate (l : list RequestJson) : list (Z * RequestJson) :=
  enumerate_from 0 l.

(** ** The state shared by the loop and the workers *)

Inductive Pc := LoopTop | LoopCheck.

Record State := mkState {
  retry_queue : list APIRequest;
  status_tracker : StatusTracker;
  next_request : option APIRequest;
  available_request_capacity : Z;
  available_token_capacity : Z;
  last_update_time : Q;
  results : list (Z * Response);
  requests_iter : list (Z * RequestJson);
  requests_exhausted : bool;
  executor : list APIRequest;
  logger : list LogRecord;
  pc : Pc
}.

Definition with_tracker (f : StatusTracker → StatusTracker) (s : State) : State :=
  mkState (retry_queue s) (f (status_tracker s)) (next_request s)
    (available_request_capacity s) (available_token_capacity s) (last_update_time s)
    (results s) (requests_iter s) (requests_exhausted s) (executor s) (logger s) (pc s).

Definition with_retry_queue (q : list APIRequest) (s : State) : State :=
  mkState q (status_tracker s) (next_request s)
    (available_request_capacity s) (available_token_capacity s) (last_update_time s)
    (results s) (requests_iter s) (requests_exhausted s) (executor s) (logger s) (pc s).

Definition with_next_request (r : option APIRequest) (s : State) : State :=
  mkState (retry_queue s) (status_tracker s) r
    (available_request_capacity s) (available_token_capacity s) (last_update_time s)
    (results s) (requests_iter s) (requests_exhausted s) (executor s) (logger s) (pc s).

Definition with_capacity (rc tc : Z) (t : Q) (s : State) : State :=
  mkState (retry_queue s) (status_tracker s) (next_request s) rc tc t
    (results s) (requests_iter s) (requests_exhausted s) (executor s) (logger s) (pc s).

Definition with_results (l : list (Z * Response)) (s : State) : State :=
  mkState (retry_queue s) (status_tracker s) (next_request s)
    (available_request_capacity s) (available_token_capacity s) (last_update_time s)
    l (requests_iter s) (requests_exhausted s) (executor s) (logger s) (pc s).

Definition with_supply (it : list (Z * RequestJson)) (ex : bool) (s : State) : State :=
  mkState (retry_queue s) (status_tracker s) (next_request s)
    (available_request_capacity s) (available_token_capacity s) (last_update_time s)
    (results s) it ex (executor s) (logger s) (pc s).

Definition with_executor (l : list APIRequest) (s : State) : State :=
  mkState (retry_queue s) (status_tracker s) (next_request s)
    (available_request_capacity s) (available_token_capacity s) (last_update_time s)
    (results s) (requests_iter s) (requests_exhausted s) l (logger s) (pc s).

Definition log (r : LogRecord) (s : State) : State :=
  mkState (retry_queue s) (status_tracker s) (next_request s)
    (available_request_capacity s) (available_token_capacity s) (last_update_time s)
    (results s) (requests_iter s) (requests_exhausted s) (executor s)
    (logger s ++ [r]) (pc s).

Definition with_pc (p : Pc) (s : State) : State :=
  mkState (retry_queue s) (status_tracker s) (next_request s)
    (available_request_capacity s) (available_token_capacity s) (last_update_time s)
    (results s) (requests_iter s) (requests_exhausted s) (executor s) (logger s) p.

(** ** APIRequest.call_api *)

(** The handler that catches an exception of a given class. *)
Inductive Handler := HRateLimit | HRetryable | HInvalidRequest | HException.

Definition handler_of (c : ExceptionClass) : Handler :=
  match c with
  | RateLimitError => HRateLimit
  | Timeout | APIError | APIConnectionError | ServiceUnavailableError => HRetryable
  | InvalidRequestError => HInvalidRequest
  | _ => HException
  end.

Definition ten_minutes_error : Exception :=
  mkException MlflowException "Request failed after retrying for 10 minutes.".

(** [self.call_api(retry_queue, status_tracker)], where [o] is what the
    API call does and [current_time] what [time.time()] reads in the
    rate-limit handler. *)
Definition call_api (self : APIRequest) (o : Outcome) (current_time : Q)
    (s : State) : State :=
  let s := log (LogStarted (index self)) s in
  match o with
  | Returned response =>
      let s := log (LogSucceeded (index self)) s in
      let s := with_tracker (complete_task true) s in
      with_results (results s ++ [(index self, response)]) s
  | Raised e =>
      match handler_of (exc_class e) with
      | HRateLimit =>
          let s := log (LogFailed (index self) e) s in
          let s := with_tracker (set_time_of_last_rate_limit_error current_time) s in
          let s := with_tracker increment_num_rate_limit_errors s in
          if Qlt_le_dec (current_time - start_time self) (inject_Z 600) then
            if Qlt_le_dec (inject_Z 60) (current_time - last_log_time self) then
              let s := log LogRetryWarning s in
              with_retry_queue (retry_queue s ++ [with_last_log_time current_time self]) s
            else
              with_retry_queue (retry_queue s ++ [self]) s
          else
            let s := log LogTenMinutes s in
            let s := with_tracker (complete_task false) s in
            with_tracker (set_error ten_minutes_error) s
      | HRetryable =>
          let s := log (LogFailed (index self) e) s in
          let s := with_tracker increment_num_api_errors s in
          if 0 <? attempts_left self then
            with_retry_queue (retry_queue s ++ [self]) s
          else
            let s := with_tracker (complete_task false) s in
            with_tracker (set_error e) s
      | HInvalidRequest | HException =>
          let s := log (LogFailed (index self) e) s in
          let s := with_tracker increment_num_api_errors s in
          let s := with_tracker (complete_task false) s in
          with_tracker (set_error e) s
      end
  end.

(** ** process_api_requests *)

(** The cost estimator; it returns the token count or raises. *)
Variable num_tokens_consumed_from_request : RequestJson → Exception + Z.

Variable P : Params.

Definition last_index : Z := Z.of_nat (length (requests P)) - 1.

Definition initial_state (now : Q) : State :=
  mkState [] StatusTracker_init None
    (max_requests_per_minute P) (max_tokens_per_minute P) now
    [] (enumerate (requests P)) false [] [] LoopTop.

(** Get the next request: from the retry queue first, else from the
    supply.  [current_time] is read when a fresh request is built. *)
Definition get_next_request (current_time : Q) (s : State) : Exception + State :=
  match next_request s with
  | Some _ => inr s
  | None =>
      match retry_queue s with
      | r :: q =>
          inr (log (LogRetrying (index r))
                 (with_next_request (Some r) (with_retry_queue q s)))
      | [] =>
          match requests_iter s with
          | (i, rj) :: rest =>
              match num_tokens_consumed_from_request rj with
              | inl e => inl e
              | inr tokens =>
                  let r := mkAPIRequest i rj tokens (max_attempts P)
                             current_time current_time in
                  inr (with_supply rest (i =? last_index)
                         (with_tracker start_task (with_next_request (Some r) s)))
              end
          | [] => inr s
          end
      end
  end.

(** Update the available capacity. *)
Definition update_capacity (current_time : Q) (s : State) : State :=
  let seconds_since_update := (current_time - last_update_time s)%Q in
  with_capacity
    (refilled (available_request_capacity s) (max_requests_per_minute P)
       seconds_since_update)
    (refilled (available_token_capacity s) (max_tokens_per_minute P)
       seconds_since_update)
    current_time s.

Definition admission_test (r : APIRequest) (s : State) : bool :=
  (1 <=? available_request_capacity s)
  && (token_consumption r <=? available_token_capacity s).

Definition max_tokens_error : Exception :=
  mkException MlflowException "Request size exceeded max tokens.".

(** The [if next_request:] block.  [validate] is what
    [api_token.validate] does: nothing, or it raises. *)
Definition submit_next_request (validate : option Exception) (s : State)
    : Exception + State :=
  match next_request s with
  | None => inr s
  | Some r =>
      if admission_test r s then
        let s := with_capacity
                   (available_request_capacity s - 1)
                   (available_token_capacity s - token_consumption r)
                   (last_update_time s) s in
        let r := with_attempts_left (attempts_left r - 1) r in
        match validate with
        | Some e => inl e
        | None =>
            inr (with_next_request None (with_executor (executor s ++ [r]) s))
        end
      else
        let s := with_next_request None s in
        let s := with_tracker (complete_task false) s in
        inr (with_tracker (set_error max_tokens_error) s)
  end.

(** The first half of the loop body, down to the [if next_request:]
    block. *)
Definition dispatch (t_new t_update : Q) (validate : option Exception)
    (s : State) : Exception + State :=
  match get_next_request t_new s with
  | inl e => inl e
  | inr s => submit_next_request validate (update_capacity t_update s)
  end.

(** The test that leaves the loop. *)
Definition all_tasks_finished (s : State) : bool :=
  requests_exhausted s && (num_tasks_in_progress (status_tracker s) =? 0).

(** ** Runs *)

Inductive Event :=
  | Dispatch (t_new t_update : Q) (validate : option Exception)
  | Check
  | Complete (n : nat) (o : Outcome) (current_time : Q).

Inductive Step :=
  | Continue (s : State)
  | Break (s : State)
  | Raise (e : Exception)
  | Disabled.

Definition step (ev : Event) (s : State) : Step :=
  match ev with
  | Dispatch t_new t_update validate =>
      match pc s with
      | LoopTop =>
          match dispatch t_new t_update validate s with
          | inl e => Raise e
          | inr s' => Continue (with_pc LoopCheck s')
          end
      | LoopCheck => Disabled
      end
  | Check =>
      match pc s with
      | LoopCheck =>
          if all_tasks_finished s then Break s else Continue (with_pc LoopTop s)
      | LoopTop => Disabled
      end
  | Complete n o current_time =>
      match executor s !! n with
      | Some r => Continue (call_api r o current_time (with_executor (delete n (executor s)) s))
      | None => Disabled
      end
  end.

Fixpoint run (evs : list Event) (s : State) : Step :=
  match evs with
  | [] => Continue s
  | ev :: evs' =>
      match step ev s with
      | Continue s' => run evs' s'
      | other => other
      end
  end.

(** ** After the loop *)

Inductive Result :=
  | Return (output : list Response)
  | Throw (e : Exception).

(** [sorted(results)]: the indices of a run are pairwise distinct, so
    the order of the pairs is the order of their first components. *)
Definition index_le (a b : Z * Response) : Prop := a.1 ≤ b.1.

#[global] Instance index_le_dec : RelDecision index_le.
Proof. intros a b. unfold index_le. apply _. Defined.

Definition sorted (l : list (Z * Response)) : list (Z * Response) :=
  merge_sort index_le l.

Definition raise (e : option Exception) : Result :=
  match e with
  | Some e => Throw e
  | None => Throw (mkException TypeError "exceptions must derive from BaseException")
  end.

Definition tasks_failed_error (n : Z) : Exception :=
  mkException MlflowException (pretty n ++ " tasks failed. See logs for details.").

Definition final_status (s : State) : Result :=
  let st := status_tracker s in
  if 0 <? num_tasks_failed st then
    if throw_original_error P && (length (requests P) =? 1)%nat then
      raise (error st)
    else
      Throw (tasks_failed_error (num_tasks_failed st))
  else
    Return (sorted (results s)).*2.

(** The whole function on one schedule: [None] while the loop has not
    been left. *)
Definition process_api_requests (now : Q) (evs : list Event) : option Result :=
  match run evs (initial_state now) with
  | Break s => Some (final_status s)
  | Raise e => Some (Throw e)
  | _ => None
  end.


(** ** Schedules and predicates used in the statements *)

(** The state a schedule leads to. *)
Definition state_after (now : Q) (evs : list Event) : State :=
  match run evs (initial_state now) with
  | Continue s | Break s => s
  | _ => initial_state now
  end.

(** Ticks of the loop during which no call finishes; each element gives
    the two clock readings of the tick and what [api_token.validate]
    does. *)
Definition ticks (l : list (Q * Q * option Exception)) : list Event :=
  flat_map (λ x, [Dispatch x.1.1 x.1.2 x.2; Check]) l.

(** Capacity updates of consecutive ticks in which nothing is submitted. *)
Definition idle_updates (times : list Q) (s : State) : State :=
  fold_left (λ s t, update_capacity t s) times s.

(** The sum of the refills granted at the given update times, the
    previous update having been made at [t0]. *)
Fixpoint refill_sum (ceiling : Z) (t0 : Q) (times : list Q) : Z :=
  match times with
  | [] => 0
  | t :: times' => refill ceiling (t - t0) + refill_sum ceiling t times'
  end.

(** The time of the last of the given updates ([t0] if there is none). *)
Fixpoint last_time (t0 : Q) (times : list Q) : Q :=
  match times with
  | [] => t0
  | t :: times' => last_time t times'
  end.

Fixpoint nondecreasing_from (t0 : Q) (times : list Q) : Prop :=
  match times with
  | [] => True
  | t :: times' => (t0 <= t)%Q ∧ nondecreasing_from t times'
  end.

(** The clock read by the capacity update never runs backwards. *)
Fixpoint clock_nondecreasing (t0 : Q) (evs : list Event) : Prop :=
  match evs with
  | [] => True
  | Dispatch _ t_update _ :: evs' =>
      (t0 <= t_update)%Q ∧ clock_nondecreasing t_update evs'
  | _ :: evs' => clock_nondecreasing t0 evs'
  end.

Definition capacity_within (s : State) : Prop :=
  (0 ≤ available_request_capacity s ≤ max_requests_per_minute P)
  ∧ (0 ≤ available_token_capacity s ≤ max_tokens_per_minute P).

(** No request that is held, queued or in flight has a negative cost. *)
Definition costs_nonneg (s : State) : Prop :=
  ∀ r, r ∈ option_list (next_request s) ++ retry_queue s ++ executor s →
       0 ≤ token_consumption r.

(** Every response returned along the schedule stands in the relation
    [answers] to the payload of the call that returned it. *)
Fixpoint answered (answers : RequestJson → Response → Prop)
    (evs : list Event) (s : State) : Prop :=
  match evs with
  | [] => True
  | ev :: evs' =>
      match ev with
      | Complete n (Returned response) _ =>
          match executor s !! n with
          | Some r => answers (request_json r) response
          | None => True
          end
      | _ => True
      end
      ∧ match step ev s with
        | Continue s' => answered answers evs' s'
        | _ => True
        end
  end.

(** The requests that have been read from the supply and are neither
    recorded as a result nor failed. *)
Definition live (s : State) : list APIRequest :=
  option_list (next_request s) ++ retry_queue s ++ executor s.

Record consistent (answers : RequestJson → Response → Prop)
    (pulled : list (Z * RequestJson)) (s : State) : Prop := mkConsistent {
  cons_supply : enumerate (requests P) = pulled ++ requests_iter s;
  cons_started : num_tasks_started (status_tracker s) = Z.of_nat (length pulled);
  cons_balanced : tracker_balanced (status_tracker s);
  cons_in_progress :
    num_tasks_in_progress (status_tracker s) = Z.of_nat (length (live s));
  cons_succeeded :
    num_tasks_succeeded (status_tracker s) = Z.of_nat (length (results s));
  cons_failed : 0 ≤ num_tasks_failed (status_tracker s);
  cons_error :
    0 < num_tasks_failed (status_tracker s) → is_Some (error (status_tracker s));
  cons_live : ∀ r, r ∈ live s → (index r, request_json r) ∈ pulled;
  cons_results :
    ∀ i response, (i, response) ∈ results s →
      ∃ rj, (i, rj) ∈ pulled ∧ answers rj response;
  cons_nodup : NoDup ((index <$> live s) ++ (results s).*1);
  cons_exhausted : requests_exhausted s = true → requests_iter s = []
}.

(** Nothing is held, queued, in flight or left in the supply, and the
    supply has not been seen to end. *)
Definition waiting_forever (s : State) : Prop :=
  next_request s = None ∧ retry_queue s = [] ∧ executor s = []
  ∧ requests_iter s = [] ∧ requests_exhausted s = false.

(** One request whose every call raises [e]: a tick that submits it,
    the call failing, the termination test; one such round per minute. *)
Fixpoint failing_rounds (e : Exception) (start : Z) (rounds : nat) : list Event :=
  match rounds with
  | O => []
  | S rounds' =>
      let t := inject_Z (60 * start) in
      [Dispatch t t None; Complete 0 (Raised e) t; Check]
        ++ failing_rounds e (start + 1) rounds'
  end.

(** The single request of the run waits in the retry queue with [a]
    attempts left, [j] calls having been made for it so far, the last
    capacity update dating from round [j - 1]. *)
Definition awaiting_retry (rj : RequestJson) (tokens : Z) (j : nat) (a : Z)
    (logged : list LogRecord → Prop) (s : State) : Prop :=
  ∃ r, retry_queue s = [r]
       ∧ (index r = 0 ∧ request_json r = rj ∧ token_consumption r = tokens
          ∧ attempts_left r = a)
       ∧ (next_request s = None ∧ executor s = [] ∧ requests_iter s = []
          ∧ requests_exhausted s = true ∧ pc s = LoopTop)
       ∧ (num_tasks_in_progress (status_tracker s) = 1
          ∧ num_tasks_failed (status_tracker s) = 0)
       ∧ (0 ≤ available_request_capacity s ∧ 0 ≤ available_token_capacity s
          ∧ (last_update_time s == inject_Z (60 * (Z.of_nat j - 1)))%Q)
       ∧ logged (logger s).

Definition is_retrying (i : Z) (r : LogRecord) : bool :=
  match r with LogRetrying j => j =? i | _ => false end.

Definition is_started (i : Z) (r : LogRecord) : bool :=
  match r with LogStarted j => j =? i | _ => false end.

Fixpoint count_log (p : LogRecord → bool) (l : list LogRecord) : nat :=
  match l with
  | [] => O
  | r :: l' => ((if p r then 1 else 0) + count_log p l')%nat
  end.

(** How often request [i] was taken from the retry queue, and how often
    a call was made for it. *)
Definition count_retrying (i : Z) (s : State) : nat :=
  count_log (is_retrying i) (logger s).

Definition count_started (i : Z) (s : State) : nat :=
  count_log (is_started i) (logger s).

End Dispatcher.

Arguments APIRequest : clear implicits.
Arguments Outcome : clear implicits.
Arguments Params : clear implicits.
Arguments State : clear implicits.
Arguments Event : clear implicits.
Arguments Step : clear implicits.
Arguments Result : clear implicits.

(** ** The LangChain sibling *)

Module LangChain.
Section Loop.

Context {RequestJson Response : Type}.

Record StatusTracker := mkStatusTracker {
  num_tasks_started : Z;
  num_tasks_in_progress : Z;
  num_tasks_succeeded : Z;
  num_tasks_failed : Z;
  num_api_errors : Z
}.

Definition start_task (st : StatusTracker) : StatusTracker :=
  mkStatusTracker (num_tasks_started st + 1) (num_tasks_in_progress st + 1)
    (num_tasks_succeeded st) (num_tasks_failed st) (num_api_errors st).

Definition complete_task (success : bool) (st : StatusTracker) : StatusTracker :=
  mkStatusTracker (num_tasks_started st) (num_tasks_in_progress st - 1)
    (if success then num_tasks_succeeded st + 1 else num_tasks_succeeded st)
    (if success then num_tasks_failed st else num_tasks_failed st + 1)
    (num_api_errors st).

Definition increment_num_api_errors (st : StatusTracker) : StatusTracker :=
  mkStatusTracker (num_tasks_started st) (num_tasks_in_progress st)
    (num_tasks_succeeded st) (num_tasks_failed st) (num_api_errors st + 1).

Record APIRequest := mkAPIRequest {
  index : Z;
  request_json : RequestJson
}.

Record State := mkState {
  retry_queue : list APIRequest;
  status_tracker : StatusTracker;
  next_request : option APIRequest;
  results : list (Z * Response);
  requests_iter : list (Z * RequestJson);
  executor : list APIRequest
}.

(** [call_api]: [None] stands for any exception raised by the model. *)
Definition call_api (self : APIRequest) (o : option Response) (s : State) : State :=
  match o with
  | Some response =>
      mkState (retry_queue s) (complete_task true (status_tracker s))
        (next_request s) (results s ++ [(index self, response)])
        (requests_iter s) (executor s)
  | None =>
      mkState (retry_queue s)
        (complete_task false (increment_num_api_errors (status_tracker s)))
        (next_request s) (results s) (requests_iter s) (executor s)
  end.

Definition initial_state (requests : list RequestJson) : State :=
  mkState [] (mkStatusTracker 0 0 0 0 0) None [] (enumerate requests) [].

Definition get_next_request (s : State) : State :=
  match next_request s with
  | Some _ => s
  | None =>
      match retry_queue s with
      | r :: q =>
          mkState q (status_tracker s) (Some r) (results s) (requests_iter s)
            (executor s)
      | [] =>
          match requests_iter s with
          | (i, rj) :: rest =>
              mkState [] (start_task (status_tracker s)) (Some (mkAPIRequest i rj))
                (results s) rest (executor s)
          | [] => s
          end
      end
  end.

Definition submit_next_request (s : State) : State :=
  match next_request s with
  | Some r =>
      mkState (retry_queue s) (status_tracker s) None (results s)
        (requests_iter s) (executor s ++ [r])
  | None => s
  end.

Definition all_tasks_finished (s : State) : bool :=
  num_tasks_in_progress (status_tracker s) =? 0.

Inductive Event :=
  | Dispatch
  | Check
  | Complete (n : nat) (o : option Response).

(** The loop of the sibling, with the same cut of the body; [true] in
    the second component says that the loop has been left. *)
Fixpoint run (evs : list Event) (at_check : bool) (s : State) : option (State * bool) :=
  match evs with
  | [] => Some (s, false)
  | Dispatch :: evs' =>
      if at_check then None
      else run evs' true (submit_next_request (get_next_request s))
  | Check :: evs' =>
      if at_check then
        if all_tasks_finished s then Some (s, true) else run evs' false s
      else None
  | Complete n o :: evs' =>
      match executor s !! n with
      | Some r =>
          run evs' at_check
            (call_api r o
               (mkState (retry_queue s) (status_tracker s) (next_request s)
                  (results s) (requests_iter s) (delete n (executor s))))
      | None => None
      end
  end.

Definition process_api_requests (requests : list RequestJson) (evs : list Event)
    : option (Result Response) :=
  match run evs false (initial_state requests) with
  | Some (s, true) =>
      if 0 <? num_tasks_failed (status_tracker s) then
        Some (Throw (tasks_failed_error (num_tasks_failed (status_tracker s))))
      else
        Some (Return (sorted (results s)).*2)
  | _ => None
  end.

End Loop.
End LangChain.

(** ** Concrete runs *)

(** A payload is given by its token count; a response is a string. *)
Definition tokens_of (rj : nat) : Exception + Z := inr (Z.of_nat rj).

Definition echo (rj : nat) : string := pretty rj.

Definition timeout_error : Exception := mkException Timeout "timed out".
Definition rate_limit_error : Exception := mkException RateLimitError "rate limit reached".

(** Two requests of 60 tokens under a ceiling of 100 tokens per minute,
    read one millisecond apart; then the first call returns. *)
Definition two_requests : Params nat := mkParams [60; 60]%nat 3500 100 5 false.

Definition two_requests_schedule : list (Event string) :=
  [Dispatch 0 0 None; Check; Dispatch (1 # 1000) (1 # 1000) None].

Definition two_requests_end : list (Event string) :=
  [Complete 0 (Returned (echo 60)) 1; Check].

(** One request that meets a rate-limit error on its first call and is
    taken from the retry queue two seconds later. *)
Definition one_request (k : Z) : Params nat := mkParams [10]%nat 3500 90000 k false.

Definition rate_limited_schedule : list (Event string) :=
  [Dispatch 0 0 None; Complete 0 (Raised rate_limit_error) 1; Check].

Definition readmission : Event string := Dispatch 2 2 None.

(** One request submitted at time 0 under ceilings of 1 request and 60
    tokens per minute, then two ticks half a second apart. *)
Definition slow_refill : Params nat := mkParams [5]%nat 1 60 5 false.

Definition slow_refill_submission : list (Event string) :=
  [Dispatch 0 0 None; Check].

Definition slow_refill_idle : list (Event string) :=
  ticks [(1 # 2, 1 # 2, None); (1, 1, None)]%Q.

(** The refill as the specification words it: [ceiling * elapsed / 60]
    is added to the budget, and the sum is capped at the ceiling. *)
Definition refilled_as_specified (available ceiling : Z) (elapsed : Q) : Q :=
  let x := (inject_Z available + inject_Z ceiling * elapsed / inject_Z 60)%Q in
  if Qle_bool x (inject_Z ceiling) then x else inject_Z ceiling.

(** Three requests that finish in the order 2, 0, 1. *)
Definition three_requests : Params nat := mkParams [7; 8; 9]%nat 3500 90000 5 false.

Definition three_requests_schedule : list (Event string) :=
  [Dispatch 0 0 None; Check; Dispatch 0 0 None; Check; Dispatch 0 0 None;
   Complete 2 (Returned (echo 9)) 1;
   Complete 0 (Returned (echo 7)) 1;
   Check; Dispatch 1 1 None;
   Complete 0 (Returned (echo 8)) 2;
   Check].

(** The empty list of requests. *)
Definition no_requests : Params nat := mkParams [] 3500 90000 5 false.

(** A request that has been submitted once, at time 0. *)
Definition pending_request : APIRequest nat := mkAPIRequest 0 10%nat 10 4 0 0.

(** The responses of a run echo the payloads. *)
Definition echoes (rj : nat) (response : string) : Prop := response = echo rj.

(** [k] rounds in which the call of the single request times out. *)
Definition timeouts (k : nat) : list (Event string) :=
  failing_rounds timeout_error 0 k.

(** ** The cost estimator *)

Module CostEstimator.

(** The [task] argument: one of the three API classes the function
    knows, or any other class, given by its printed name. *)
Inductive Task :=
  | Completion
  | ChatCompletion
  | Embedding
  | OtherTask (name : string).

(** The value of the ["prompt"] or ["input"] key: a string, a list of
    strings, or a value of any other type. *)
Inductive TextField :=
  | TextStr (s : string)
  | TextList (l : list string)
  | TextOther.

(** The keys of [request_json] that the function reads; [None] is a
    missing key.  The numbers are integers; a message is the list of its
    items, whose values are strings. *)
Record RequestJson := mkRequestJson {
  max_tokens : option Z;
  n : option Z;
  messages : option (list (list (string * string)));
  prompt : option TextField;
  input : option TextField
}.

(** The double quote character. *)
Definition dquote : string := String (Ascii.ascii_of_nat 34) EmptyString.

Definition key_error (key : string) : Exception :=
  mkException OtherException ("KeyError: '" ++ key ++ "'").

Definition prompt_type_error : Exception :=
  mkException TypeError
    "Expecting either string or list of strings for 'prompt' field in completion request".

Definition input_type_error : Exception :=
  mkException TypeError
    ("Expecting either string or list of strings for " ++ dquote ++ "inputs" ++ dquote
     ++ " field in embedding request").

Definition not_implemented_error (name : string) : Exception :=
  mkException NotImplementedError
    ("Task " ++ dquote ++ name ++ dquote ++ " not implemented in this script").

Section Encoding.

(** [encoding.encode] of the encoding named by [token_encoding_name]. *)
Variable encode : string → list Z.

Definition len_encode (s : string) : Z := Z.of_nat (length (encode s)).

(** The inner loop over the items of one message. *)
Definition message_items (num_tokens : Z) (message : list (string * string)) : Z :=
  fold_left
    (λ num_tokens item,
       let num_tokens := num_tokens + len_encode item.2 in
       if String.eqb item.1 "name" then num_tokens - 1 else num_tokens)
    message num_tokens.

(** The outer loop over the messages. *)
Definition messages_tokens (msgs : list (list (string * string))) : Z :=
  fold_left (λ num_tokens message, message_items (num_tokens + 4) message) msgs 0.

(** [sum([len(encoding.encode(p)) for p in l])] *)
Definition sum_len_encode (l : list string) : Z :=
  fold_left Z.add (map len_encode l) 0.

Definition num_tokens_consumed_from_request (request_json : RequestJson) (task : Task)
    : Exception + Z :=
  match task with
  | Completion | ChatCompletion =>
      let max_tokens := default 15 (max_tokens request_json) in
      let n := default 1 (n request_json) in
      let completion_tokens := n * max_tokens in
      match task with
      | ChatCompletion =>
          match messages request_json with
          | None => inl (key_error "messages")
          | Some msgs => inr (messages_tokens msgs + 2 + completion_tokens)
          end
      | _ =>
          match prompt request_json with
          | None => inl (key_error "prompt")
          | Some (TextStr p) => inr (len_encode p + completion_tokens)
          | Some (TextList ps) =>
              inr (sum_len_encode ps + completion_tokens * Z.of_nat (length ps))
          | Some TextOther => inl prompt_type_error
          end
      end
  | Embedding =>
      match input request_json with
      | None => inl (key_error "input")
      | Some (TextStr inp) => inr (len_encode inp)
      | Some (TextList inps) => inr (sum_len_encode inps)
      | Some TextOther => inl input_type_error
      end
  | OtherTask name => inl (not_implemented_error name)
  end.

End Encoding.

(** The request with one prompt, and with a batch of them. *)
Definition single_prompt (rq : RequestJson) (p : string) : RequestJson :=
  mkRequestJson (max_tokens rq) (n rq) (messages rq) (Some (TextStr p)) (input rq).

Definition batch_prompt (rq : RequestJson) (ps : list string) : RequestJson :=
  mkRequestJson (max_tokens rq) (n rq) (messages rq) (Some (TextList ps)) (input rq).

(** The estimate, [0] where the function raises. *)
Definition estimate_or_zero (encode : string → list Z) (rq : RequestJson) (task : Task) : Z :=
  match num_tokens_consumed_from_request encode rq task with
  | inr tokens => tokens
  | inl _ => 0
  end.

(** No message has two items with the same key. *)
Definition keys_unique (msgs : list (list (string * string))) : Prop :=
  Forall (λ message, NoDup message.*1) msgs.

End CostEstimator.

(** ** mlflow/openai/utils.py *)

Module Utils.

Section Dicts.

Context {V W : Type}.

(** A dictionary is true when it is not empty; [None] is false. *)
Definition truthy {A : Type} (params : option (gmap string A)) : bool :=
  match params with
  | Some p => negb (bool_decide (dom p = ∅))
  | None => false
  end.

Definition keys_of {A : Type} (params : option (gmap string A)) : gset string :=
  match params with
  | Some p => dom p
  | None => ∅
  end.

(** [{k: v for k, v in envs.items() if k not in params} if params else envs] *)
Definition _exclude_params_from_envs (params : option (gmap string V))
    (envs : gmap string W) : gmap string W :=
  if truthy params then filter (λ kv, kv.1 ∉ keys_of params) envs else envs.

(** The two ways [_validate_model_params] raises; the first message
    lists the keys of the model. *)
Inductive InvalidParameterValue :=
  | ModelKeysInParams (model_keys : list string)
  | BatchSizeNotSupported.

Definition _validate_model_params (task : string) (model : gmap string V)
    (params : option (gmap string W)) : option InvalidParameterValue :=
  match params with
  | None => None
  | Some p =>
      if negb (truthy params) then None
      else if existsb (λ key, bool_decide (key ∈ dom model)) (map_to_list p).*1
      then Some (ModelKeysInParams (map_to_list model).*1)
      else if bool_decide ("batch_size" ∈ dom p) && String.eqb task "chat.completions"
      then Some BatchSizeNotSupported
      else None
  end.

End Dicts.

(** *** _OAITokenHolder *)

Record AccessToken := mkAccessToken {
  token : string;
  expires_on : Z
}.

(** The holder, and beside it the module attribute [openai.api_key] that
    its methods read and write.  [_credential] says whether a credential
    object has been made. *)
Record OAITokenHolder := mkOAITokenHolder {
  _api_token : option AccessToken;
  _credential : bool;
  _is_azure_ad : bool;
  _key_configured : bool
}.

(** [bool(openai.api_key)] *)
Definition key_set (api_key : option string) : bool :=
  match api_key with
  | Some k => negb (String.eqb k EmptyString)
  | None => false
  end.

Definition azure_identity_missing : Exception :=
  mkException MlflowException
    "Using API type `azure_ad` or `azuread` requires the package `azure-identity` to be installed.".

Definition key_not_set : Exception :=
  mkException MlflowException
    "OpenAI API key must be set in the ``OPENAI_API_KEY`` environment variable.".

Definition token_not_acquired (message : string) : Exception :=
  mkException MlflowException
    ("Unable to acquire a valid Azure AD token for the resource due to the following error: "
     ++ message).

Definition no_credential : Exception :=
  mkException OtherException
    "AttributeError: 'NoneType' object has no attribute 'get_token'".

(** [_OAITokenHolder(api_type)]: [api_key] is [openai.api_key], [env]
    the value of [OPENAI_API_KEY] in the environment if it is there,
    [azure_identity] whether the package can be imported. *)
Definition init (api_type : string) (api_key : option string) (env : option string)
    (azure_identity : bool) : Exception + (OAITokenHolder * option string) :=
  let is_azure_ad := String.eqb api_type "azure_ad" || String.eqb api_type "azuread" in
  let key_configured := key_set api_key in
  let '(api_key, key_configured) :=
    match env with
    | Some v => if negb (key_set api_key) then (Some v, true) else (api_key, key_configured)
    | None => (api_key, key_configured)
    end in
  if is_azure_ad && negb key_configured then
    if azure_identity then
      inr (mkOAITokenHolder None true is_azure_ad key_configured, api_key)
    else inl azure_identity_missing
  else inr (mkOAITokenHolder None false is_azure_ad key_configured, api_key).

(** What [self._credential.get_token(...)] does. *)
Inductive GetToken :=
  | Acquired (t : AccessToken)
  | ClientAuthenticationError (message : string)
  | GetTokenRaises (e : Exception).

(** [validate]: [now] is [time.time()], [get_token] what the credential
    does if it is asked. *)
Definition validate (self : OAITokenHolder) (api_key : option string) (now : Q)
    (get_token : GetToken) : Exception + (OAITokenHolder * option string) :=
  if _key_configured self then inr (self, api_key)
  else if _is_azure_ad self then
    let stale :=
      match _api_token self with
      | None => true
      | Some t =>
          if Qlt_le_dec (inject_Z (expires_on t)) (now + inject_Z 60) then true else false
      end in
    if stale then
      if _credential self then
        match get_token with
        | Acquired t =>
            inr (mkOAITokenHolder (Some t) (_credential self) (_is_azure_ad self)
                   (_key_configured self),
                 Some (token t))
        | ClientAuthenticationError message => inl (token_not_acquired message)
        | GetTokenRaises e => inl e
        end
      else inl no_credential
    else inr (self, api_key)
  else inl key_not_set.

(** A sequence of [validate] calls, stopped by the first that raises. *)
Fixpoint validate_all (calls : list (Q * GetToken)) (self : OAITokenHolder)
    (api_key : option string) : Exception + (OAITokenHolder * option string) :=
  match calls with
  | [] => inr (self, api_key)
  | (now, get_token) :: calls' =>
      match validate self api_key now get_token with
      | inl e => inl e
      | inr (self', api_key') => validate_all calls' self' api_key'
      end
  end.

(** [api_type in ("azure_ad", "azuread")] *)
Definition is_azure (api_type : string) : bool :=
  String.eqb api_type "azure_ad" || String.eqb api_type "azuread".

(** The key in [openai.api_key] is the token the holder has. *)
Definition key_is_token (h : OAITokenHolder) (api_key : option string) : Prop :=
  ∀ t, _api_token h = Some t → api_key = Some (token t).

(** The holder with a new token. *)
Definition with_token (t : AccessToken) (h : OAITokenHolder) : OAITokenHolder :=
  mkOAITokenHolder (Some t) (_credential h) (_is_azure_ad h) (_key_configured h).

End Utils.

(** ** More of the dispatch loop *)

Section LoopExtras.

Context {RequestJson Response : Type}.
Variable num_tokens_consumed_from_request : RequestJson → Exception + Z.
Variable P : Params RequestJson.

Definition seconds_to_pause_after_rate_limit_error : Q := inject_Z 15.

(** The cool-down at the end of a tick: the argument of [time.sleep],
    or [None] when the sleep is skipped; [now] is what [time.time()]
    reads. *)
Definition remaining_seconds_to_pause (now : Q) (s : State RequestJson Response)
    : option Q :=
  let seconds_since_rate_limit_error :=
    (now - time_of_last_rate_limit_error (status_tracker s))%Q in
  if Qlt_le_dec seconds_since_rate_limit_error seconds_to_pause_after_rate_limit_error
  then Some (seconds_to_pause_after_rate_limit_error - seconds_since_rate_limit_error)%Q
  else None.

(** The time at which the loop goes on after the cool-down. *)
Definition resume_time (now : Q) (s : State RequestJson Response) : Q :=
  match remaining_seconds_to_pause now s with
  | Some pause => (now + pause)%Q
  | None => now
  end.

(** An outcome after which [call_api] never puts the request back. *)
Definition settles (o : Outcome Response) : bool :=
  match o with
  | Returned _ => true
  | Raised e =>
      match handler_of (exc_class e) with
      | HInvalidRequest | HException => true
      | HRateLimit | HRetryable => false
      end
  end.

(** One tick in which the call that is submitted, if one is, finishes
    before the termination test. *)
Definition sequential_round (t : Q) (o : Outcome Response)
    (s : State RequestJson Response) : Step RequestJson Response :=
  match step num_tokens_consumed_from_request P (Dispatch t t None) s with
  | Continue s1 =>
      match executor s1 with
      | [] => step num_tokens_consumed_from_request P Check s1
      | _ :: _ =>
          match step num_tokens_consumed_from_request P (Complete 0 o t) s1 with
          | Continue s2 => step num_tokens_consumed_from_request P Check s2
          | other => other
          end
      end
  | other => other
  end.

Fixpoint sequential (rounds : list (Q * Outcome Response))
    (s : State RequestJson Response) : Step RequestJson Response :=
  match rounds with
  | [] => Continue s
  | (t, o) :: rounds' =>
      match sequential_round t o s with
      | Continue s' => sequential rounds' s'
      | other => other
      end
  end.

(** The state in which round [i] of a sequential run starts. *)
Definition between_rounds (i : nat) (s : State RequestJson Response) : Prop :=
  (pc s = LoopTop ∧ next_request s = None ∧ retry_queue s = [] ∧ executor s = [])
  ∧ requests_iter s = drop i (enumerate (requests P))
  ∧ requests_exhausted s = false
  ∧ (num_tasks_started (status_tracker s) = Z.of_nat i
     ∧ num_tasks_in_progress (status_tracker s) = 0
     ∧ num_tasks_succeeded (status_tracker s) + num_tasks_failed (status_tracker s)
       = Z.of_nat i
     ∧ num_tasks_succeeded (status_tracker s) = Z.of_nat (length (results s))
     ∧ 0 ≤ num_tasks_failed (status_tracker s)).

(** What only grows from one state of a run to a later one. *)
Definition grows (s s' : State RequestJson Response) : Prop :=
  let st := status_tracker s in
  let st' := status_tracker s' in
  (num_tasks_started st ≤ num_tasks_started st'
   ∧ num_tasks_succeeded st ≤ num_tasks_succeeded st'
   ∧ num_tasks_failed st ≤ num_tasks_failed st'
   ∧ num_rate_limit_errors st ≤ num_rate_limit_errors st'
   ∧ num_api_errors st ≤ num_api_errors st')
  ∧ results s `prefix_of` results s'
  ∧ logger s `prefix_of` logger s'.

End LoopExtras.

(** ** What the LangChain loop keeps between two events *)

Module LangChainInv.
Import LangChain.

(** The bookkeeping of the sibling between two events of a run over
    [requests]. *)
Record kept {RequestJson Response : Type} (requests : list RequestJson)
    (s : @State RequestJson Response) : Prop := mkKept {
  kept_retry : retry_queue s = [];
  kept_next : next_request s = None;
  kept_started : 0 ≤ num_tasks_started (status_tracker s);
  kept_supply :
    requests_iter s
    = drop (Z.to_nat (num_tasks_started (status_tracker s))) (enumerate requests);
  kept_balance :
    num_tasks_started (status_tracker s)
    = num_tasks_in_progress (status_tracker s)
      + num_tasks_succeeded (status_tracker s)
      + num_tasks_failed (status_tracker s);
  kept_errors :
    num_api_errors (status_tracker s) = num_tasks_failed (status_tracker s);
  kept_in_flight :
    num_tasks_in_progress (status_tracker s) = Z.of_nat (length (executor s))
}.

End LangChainInv.

(** ** More concrete inputs *)

(** An encoding with one token per character. *)
Definition one_token_per_char (s : string) : list Z :=
  map (λ c, Z.of_nat (Ascii.nat_of_ascii c)) (String.list_ascii_of_string s).

(** A chat request with one message, two completions of ten tokens. *)
Definition chat_request : CostEstimator.RequestJson :=
  CostEstimator.mkRequestJson (Some 10) (Some 2)
    (Some [[("role", "user"); ("content", "hi")]]) None None.

(** The estimator of the loop for the task [openai.Completion]. *)
Definition completion_cost (rq : CostEstimator.RequestJson) : Exception + Z :=
  CostEstimator.num_tokens_consumed_from_request one_token_per_char rq
    CostEstimator.Completion.

(** A completion request without the ["prompt"] key. *)
Definition missing_prompt : Params CostEstimator.RequestJson :=
  mkParams [CostEstimator.mkRequestJson None None None None None] 3500 90000 5 false.

(** One request of 200 tokens under a ceiling of 100 tokens per minute. *)
Definition oversized : Params nat := mkParams [200]%nat 3500 100 5 false.

Definition invalid_request_error : Exception :=
  mkException InvalidRequestError "invalid request".

(** Three rounds: the second call is refused by the API. *)
Definition three_rounds : list (Q * Outcome string) :=
  [(0, Returned (echo 7)); (1, Raised invalid_request_error); (2, Returned (echo 9))]%Q.

(** A holder for Azure AD made without a key, and a token that expires
    at time 1000. *)
Definition azure_holder : Utils.OAITokenHolder :=
  Utils.mkOAITokenHolder None true true false.

Definition azure_token : Utils.AccessToken := Utils.mkAccessToken "token" 1000.

(** A run of the LangChain loop over two requests; the second call
    raises. *)
Definition langchain_schedule : list (@LangChain.Event string) :=
  [LangChain.Dispatch; LangChain.Check; LangChain.Dispatch;
   LangChain.Complete 0 (Some "first"); LangChain.Complete 0 None; LangChain.Check].

(** * Facts *)

(** ** The status tracker *)

Lemma tracker_apply_balanced (st : StatusTracker) (op : TrackerOp) :
  tracker_balanced st → tracker_balanced (tracker_apply st op).
Proof.
  unfold tracker_balanced.
  destruct op as [ | [] | | ]; simpl; lia.
Qed.

Lemma fold_tracker_balanced (ops : list TrackerOp) (st : StatusTracker) :
  tracker_balanced st → tracker_balanced (fold_left tracker_apply ops st).
Proof.
  revert st.
  induction ops as [ | op ops IH]; intros st Hst; simpl.
  - exact Hst.
  - apply IH, tracker_apply_balanced, Hst.
Qed.

(** C10. After any sequence of counter operations on a fresh tracker the
    number of started tasks is the sum of the tasks in progress, succeeded
    and failed; [start_task] adds one to started and to in-progress,
    [complete_task] takes one from in-progress and adds one to exactly one
    of succeeded and failed; hence in-progress is zero only when started
    equals succeeded plus failed. *)
Theorem tracker_counters_balanced (ops : list TrackerOp) :
  let st := tracker_replay ops in
  tracker_balanced st
  ∧ (num_tasks_in_progress st = 0 →
     num_tasks_started st = num_tasks_succeeded st + num_tasks_failed st)
  ∧ (num_tasks_started (start_task st) = num_tasks_started st + 1
     ∧ num_tasks_in_progress (start_task st) = num_tasks_in_progress st + 1
     ∧ num_tasks_succeeded (start_task st) = num_tasks_succeeded st
     ∧ num_tasks_failed (start_task st) = num_tasks_failed st)
  ∧ (∀ success : bool,
       num_tasks_started (complete_task success st) = num_tasks_started st
       ∧ num_tasks_in_progress (complete_task success st)
         = num_tasks_in_progress st - 1
       ∧ num_tasks_succeeded (complete_task success st)
         = num_tasks_succeeded st + (if success then 1 else 0)
       ∧ num_tasks_failed (complete_task success st)
         = num_tasks_failed st + (if success then 0 else 1)).
Proof.
  intros st.
  assert (Hb : tracker_balanced st).
  { apply fold_tracker_balanced. reflexivity. }
  split; [exact Hb | ].
  split.
  - unfold tracker_balanced in Hb. lia.
  - split; [simpl; auto | ].
    intros []; simpl; repeat split; lia.
Qed.

(** ** Truncation and refill *)

Lemma py_int_floor (x : Q) : (0 <= x)%Q → py_int x = Qfloor x.
Proof.
  destruct x as [n d]. unfold Qle, py_int, Qfloor. simpl. intros H.
  apply Z.quot_div_nonneg; lia.
Qed.

Lemma py_int_nonneg (x : Q) : (0 <= x)%Q → 0 ≤ py_int x.
Proof.
  intros H. rewrite py_int_floor by exact H.
  change 0 with (Qfloor (inject_Z 0)). apply Qfloor_resp_le. exact H.
Qed.

Lemma py_int_mono (x y : Q) : (0 <= x)%Q → (x <= y)%Q → py_int x ≤ py_int y.
Proof.
  intros Hx Hxy. rewrite !py_int_floor by (try exact Hx; eapply Qle_trans; eauto).
  apply Qfloor_resp_le, Hxy.
Qed.

Lemma py_int_inject (x : Q) (z : Z) : (x == inject_Z z)%Q → py_int x = z.
Proof.
  destruct x as [n d]. unfold Qeq, py_int. simpl. intros H.
  rewrite Z.mul_1_r in H. rewrite H. apply Z.quot_mul. lia.
Qed.

Lemma py_int_add (x y : Q) :
  (0 <= x)%Q → (0 <= y)%Q → py_int x + py_int y ≤ py_int (x + y).
Proof.
  intros Hx Hy.
  assert (Hxy : (0 <= x + y)%Q).
  { rewrite <- (Qplus_0_l 0). apply Qplus_le_compat; assumption. }
  rewrite !py_int_floor by assumption.
  rewrite <- (Qfloor_Z (Qfloor x + Qfloor y)).
  apply Qfloor_resp_le. rewrite inject_Z_plus.
  apply Qplus_le_compat; apply Qfloor_le.
Qed.

Lemma minutes_nonneg (ceiling : Z) (seconds : Q) :
  0 ≤ ceiling → (0 <= seconds)%Q →
  (0 <= inject_Z ceiling * seconds / inject_Z 60)%Q.
Proof.
  intros Hc Hs. apply Qle_shift_div_l; [reflexivity | ].
  rewrite Qmult_0_l. apply Qmult_le_0_compat; [ | exact Hs].
  change 0%Q with (inject_Z 0). rewrite <- Zle_Qle. exact Hc.
Qed.

Lemma refill_nonneg (ceiling : Z) (seconds : Q) :
  0 ≤ ceiling → (0 <= seconds)%Q → 0 ≤ refill ceiling seconds.
Proof. intros Hc Hs. apply py_int_nonneg, minutes_nonneg; assumption. Qed.

Lemma refill_zero (ceiling : Z) (seconds : Q) :
  (seconds == 0)%Q → refill ceiling seconds = 0.
Proof.
  intros H. unfold refill. apply py_int_inject. rewrite H.
  unfold Qdiv. rewrite Qmult_0_r, Qmult_0_l. reflexivity.
Qed.

Lemma refill_minute (ceiling : Z) (seconds : Q) :
  (seconds == inject_Z 60)%Q → refill ceiling seconds = ceiling.
Proof.
  intros H. unfold refill. apply py_int_inject. rewrite H.
  apply Qdiv_mult_l. discriminate.
Qed.

(** A tick shorter than [60 / ceiling] seconds refills nothing. *)
Lemma refill_short_tick (ceiling : Z) (seconds : Q) :
  0 ≤ ceiling → (0 <= seconds)%Q →
  (inject_Z ceiling * seconds < inject_Z 60)%Q →
  refill ceiling seconds = 0.
Proof.
  intros Hc Hs Hlt. unfold refill.
  rewrite py_int_floor by (apply minutes_nonneg; assumption).
  set (x := (inject_Z ceiling * seconds / inject_Z 60)%Q).
  assert (Hx : (0 <= x)%Q) by (apply minutes_nonneg; assumption).
  assert (Hlo : 0 ≤ Qfloor x).
  { change 0 with (Qfloor (inject_Z 0)). apply Qfloor_resp_le, Hx. }
  assert (Hhi : Qfloor x < 1).
  { rewrite Zlt_Qlt. eapply Qle_lt_trans; [apply Qfloor_le | ].
    apply Qlt_shift_div_r; [reflexivity | ]. rewrite Qmult_1_l. exact Hlt. }
  lia.
Qed.

Lemma elapsed_nonneg (t0 t : Q) : (t0 <= t)%Q → (0 <= t - t0)%Q.
Proof. intros H. unfold Qminus. rewrite <- Qle_minus_iff. exact H. Qed.

Lemma refill_sum_nonneg (ceiling : Z) (times : list Q) (t0 : Q) :
  0 ≤ ceiling → nondecreasing_from t0 times → 0 ≤ refill_sum ceiling t0 times.
Proof.
  intros Hc. revert t0.
  induction times as [ | t times IH]; intros t0 Hmono; simpl in *.
  - lia.
  - destruct Hmono as [Ht Hmono].
    assert (0 ≤ refill ceiling (t - t0)).
    { apply refill_nonneg; [exact Hc | ]. apply elapsed_nonneg, Ht. }
    specialize (IH t Hmono). lia.
Qed.

Lemma nondecreasing_last (times : list Q) (t0 : Q) :
  nondecreasing_from t0 times → (t0 <= last_time t0 times)%Q.
Proof.
  revert t0.
  induction times as [ | t times IH]; intros t0 Hmono; simpl in *.
  - apply Qle_refl.
  - destruct Hmono as [Ht Hmono].
    eapply Qle_trans; [exact Ht | apply IH, Hmono].
Qed.

(** The refills of consecutive ticks add up to no more than the refill
    of one tick as long as all of them. *)
Lemma refill_sum_le (ceiling : Z) (times : list Q) (t0 : Q) :
  0 ≤ ceiling → nondecreasing_from t0 times →
  refill_sum ceiling t0 times ≤ refill ceiling (last_time t0 times - t0).
Proof.
  intros Hc. revert t0.
  induction times as [ | t times IH]; intros t0 Hmono; simpl in *.
  - rewrite refill_zero; [lia | ring].
  - destruct Hmono as [Ht Hmono].
    specialize (IH t Hmono).
    pose proof (nondecreasing_last times t Hmono) as Hlast.
    etransitivity; [apply Z.add_le_mono_l, IH | ].
    unfold refill.
    etransitivity; [apply py_int_add | ].
    + apply minutes_nonneg; [exact Hc | apply elapsed_nonneg, Ht].
    + apply minutes_nonneg; [exact Hc | apply elapsed_nonneg, Hlast].
    + apply Z.eq_le_incl. rewrite !py_int_floor.
      * apply Qfloor_comp. field.
      * apply minutes_nonneg; [exact Hc | ].
        apply elapsed_nonneg. eapply Qle_trans; eassumption.
      * rewrite <- (Qplus_0_l 0).
        apply Qplus_le_compat; apply minutes_nonneg; try exact Hc;
          apply elapsed_nonneg; assumption.
Qed.

(** ** What one call and one tick do *)

Section DispatcherFacts.

Context {RequestJson Response : Type}.
Variable num_tokens_consumed_from_request : RequestJson → Exception + Z.
Variable P : Params RequestJson.

#[local] Abbreviation State := (State RequestJson Response).
#[local] Abbreviation APIRequest := (APIRequest RequestJson).
#[local] Abbreviation get_next_request := (get_next_request num_tokens_consumed_from_request P).
#[local] Abbreviation step := (step num_tokens_consumed_from_request P).
#[local] Abbreviation run := (run num_tokens_consumed_from_request P).

Lemma run_cons (ev : Event Response) (evs : list (Event Response)) (s : State) :
  run (ev :: evs) s
  = match step ev s with
    | Continue s' => run evs s'
    | other => other
    end.
Proof. reflexivity. Qed.

Lemma run_app (evs1 evs2 : list (Event Response)) (s : State) :
  run (evs1 ++ evs2) s
  = match run evs1 s with
    | Continue s' => run evs2 s'
    | other => other
    end.
Proof.
  revert s.
  induction evs1 as [ | ev evs1 IH]; intros s; simpl; [reflexivity | ].
  destruct (step ev s); try reflexivity. apply IH.
Qed.

(** The three things a finished call can do to the shared state. *)
Lemma call_api_effect (self : APIRequest) (o : Outcome Response) (t : Q) (s : State) :
  let s' := call_api self o t s in
  let st := status_tracker s in
  let st' := status_tracker s' in
  next_request s' = next_request s
  ∧ executor s' = executor s
  ∧ requests_iter s' = requests_iter s
  ∧ requests_exhausted s' = requests_exhausted s
  ∧ available_request_capacity s' = available_request_capacity s
  ∧ available_token_capacity s' = available_token_capacity s
  ∧ last_update_time s' = last_update_time s
  ∧ pc s' = pc s
  ∧ num_tasks_started st' = num_tasks_started st
  ∧ ((∃ response, o = Returned response
        ∧ results s' = results s ++ [(index self, response)]
        ∧ retry_queue s' = retry_queue s
        ∧ num_tasks_in_progress st' = num_tasks_in_progress st - 1
        ∧ num_tasks_succeeded st' = num_tasks_succeeded st + 1
        ∧ num_tasks_failed st' = num_tasks_failed st
        ∧ error st' = error st)
     ∨ (∃ e r', o = Raised e
        ∧ retry_queue s' = retry_queue s ++ [r']
        ∧ index r' = index self
        ∧ request_json r' = request_json self
        ∧ token_consumption r' = token_consumption self
        ∧ attempts_left r' = attempts_left self
        ∧ start_time r' = start_time self
        ∧ results s' = results s
        ∧ num_tasks_in_progress st' = num_tasks_in_progress st
        ∧ num_tasks_succeeded st' = num_tasks_succeeded st
        ∧ num_tasks_failed st' = num_tasks_failed st
        ∧ error st' = error st)
     ∨ (∃ e, o = Raised e
        ∧ retry_queue s' = retry_queue s
        ∧ results s' = results s
        ∧ num_tasks_in_progress st' = num_tasks_in_progress st - 1
        ∧ num_tasks_succeeded st' = num_tasks_succeeded st
        ∧ num_tasks_failed st' = num_tasks_failed st + 1
        ∧ is_Some (error st'))).
Proof.
  unfold call_api.
  destruct o as [response | e].
  - simpl. repeat (split; [reflexivity | ]).
    left. exists response. repeat split.
  - destruct (handler_of (exc_class e)).
    + destruct (Qlt_le_dec (t - start_time self) (inject_Z 600));
        [destruct (Qlt_le_dec (inject_Z 60) (t - last_log_time self)) | ];
        simpl; repeat (split; [reflexivity | ]).
      * right; left. eexists e, _. repeat split.
      * right; left. eexists e, _. repeat split.
      * right; right. exists e. repeat split. eauto.
    + destruct (0 <? attempts_left self);
        simpl; repeat (split; [reflexivity | ]).
      * right; left. eexists e, _. repeat split.
      * right; right. exists e. repeat split. eauto.
    + simpl; repeat (split; [reflexivity | ]).
      right; right. exists e. repeat split. eauto.
    + simpl; repeat (split; [reflexivity | ]).
      right; right. exists e. repeat split. eauto.
Qed.

(** ** The supply *)

Lemma enumerate_from_lookup (l : list RequestJson) (i : Z) (k : nat) (j : Z) (x : RequestJson) :
  enumerate_from i l !! k = Some (j, x) → j = i + Z.of_nat k ∧ l !! k = Some x.
Proof.
  revert i k.
  induction l as [ | y l IH]; intros i k H; simpl in H.
  - discriminate.
  - destruct k as [ | k]; simpl in *.
    + inversion H; subst. split; [lia | reflexivity].
    + apply IH in H. destruct H as [-> H]. split; [lia | exact H].
Qed.

Lemma enumerate_from_length (l : list RequestJson) (i : Z) :
  length (enumerate_from i l) = length l.
Proof. revert i. induction l as [ | y l IH]; intros i; simpl; [ | rewrite IH]; reflexivity. Qed.

Lemma enumerate_from_snd (l : list RequestJson) (i : Z) :
  (enumerate_from i l).*2 = l.
Proof. revert i. induction l as [ | y l IH]; intros i; simpl; [ | rewrite IH]; reflexivity. Qed.

Lemma enumerate_from_fst_bound (l : list RequestJson) (i j : Z) :
  j ∈ (enumerate_from i l).*1 → i ≤ j.
Proof.
  revert i.
  induction l as [ | y l IH]; intros i H; simpl in H.
  - apply elem_of_nil in H. destruct H.
  - apply elem_of_cons in H. destruct H as [-> | H]; [lia | ].
    apply IH in H. lia.
Qed.

Lemma enumerate_from_sorted (l : list RequestJson) (i : Z) :
  StronglySorted Z.le (enumerate_from i l).*1.
Proof.
  revert i.
  induction l as [ | y l IH]; intros i; simpl.
  - constructor.
  - constructor; [apply IH | ].
    apply Forall_forall. intros j Hj.
    apply enumerate_from_fst_bound in Hj. lia.
Qed.

Lemma enumerate_from_NoDup (l : list RequestJson) (i : Z) :
  NoDup (enumerate_from i l).*1.
Proof.
  revert i.
  induction l as [ | y l IH]; intros i; simpl.
  - constructor.
  - constructor; [ | apply IH].
    intros Hj. apply enumerate_from_fst_bound in Hj. lia.
Qed.

(** ** The bookkeeping invariant of a run *)

Section Consistency.

Variable answers : RequestJson → Response → Prop.

#[local] Abbreviation consistent := (consistent P answers).

Lemma consistent_agree (pulled : list (Z * RequestJson)) (s s' : State) :
  retry_queue s' = retry_queue s →
  status_tracker s' = status_tracker s →
  next_request s' = next_request s →
  results s' = results s →
  requests_iter s' = requests_iter s →
  requests_exhausted s' = requests_exhausted s →
  executor s' = executor s →
  consistent pulled s → consistent pulled s'.
Proof.
  intros H1 H2 H3 H4 H5 H6 H7 [].
  constructor; unfold live in *; rewrite ?H1, ?H2, ?H3, ?H4, ?H5, ?H6, ?H7;
    assumption.
Qed.

Lemma initial_state_consistent (now : Q) :
  consistent [] (initial_state P now).
Proof.
  constructor; unfold live, tracker_balanced; simpl; try reflexivity; try lia;
    try (intros; match goal with H : _ ∈ [] |- _ => apply elem_of_nil in H; destruct H end).
  constructor.
Qed.

Lemma pulled_index (pulled rest : list (Z * RequestJson)) (i : Z) (rj : RequestJson) :
  enumerate (requests P) = pulled ++ (i, rj) :: rest →
  i = Z.of_nat (length pulled) ∧ (i ∉ pulled.*1)
  ∧ length (requests P) = (length pulled + S (length rest))%nat.
Proof.
  intros H. split; [ | split].
  - assert (Hl : enumerate (requests P) !! length pulled = Some (i, rj)).
    { rewrite H. apply list_lookup_middle. reflexivity. }
    apply enumerate_from_lookup in Hl. lia.
  - pose proof (enumerate_from_NoDup (requests P) 0) as Hnd.
    fold (enumerate (requests P)) in Hnd. rewrite H in Hnd.
    rewrite fmap_app, fmap_cons in Hnd. apply NoDup_app in Hnd.
    destruct Hnd as (_ & Hnd & _). intros Hi. apply (Hnd i Hi). left.
  - rewrite <- (enumerate_from_length (requests P) 0).
    fold (enumerate (requests P)). rewrite H, length_app. reflexivity.
Qed.

Lemma get_next_request_consistent (pulled : list (Z * RequestJson)) (t : Q) (s s1 : State) :
  consistent pulled s → get_next_request t s = inr s1 →
  ∃ pulled', consistent pulled' s1.
Proof.
  intros Hc H. unfold get_next_request in H.
  destruct (next_request s) as [r0 | ] eqn:Hnext.
  { inversion H; subst. exists pulled. exact Hc. }
  destruct (retry_queue s) as [ | r q] eqn:Hretry.
  - destruct (requests_iter s) as [ | [i rj] rest] eqn:Hiter.
    { inversion H; subst. exists pulled. exact Hc. }
    destruct (num_tokens_consumed_from_request rj) as [e | tokens]; [discriminate | ].
    inversion H; subst s1; clear H.
    destruct Hc as [Hsup Hst Hbal Hin Hsuc Hfail Herr Hlive Hres Hnd Hex].
    rewrite Hiter in Hsup.
    destruct (pulled_index _ _ _ _ Hsup) as (Hi & Hfresh & Hlen).
    unfold live in *. rewrite Hnext, Hretry in *. simpl in *.
    exists (pulled ++ [(i, rj)]).
    constructor; unfold live, tracker_balanced in *; simpl;
      rewrite ?Hretry, ?Hnext; simpl.
    + rewrite Hsup, <- app_assoc. reflexivity.
    + rewrite length_app. simpl. lia.
    + lia.
    + lia.
    + exact Hsuc.
    + exact Hfail.
    + exact Herr.
    + intros r Hr. apply elem_of_cons in Hr. destruct Hr as [-> | Hr]; simpl.
      * apply elem_of_app. right. left.
      * apply elem_of_app. left. apply Hlive, Hr.
    + intros j response Hj. destruct (Hres j response Hj) as (rj' & Hp & Ha).
      exists rj'. split; [apply elem_of_app; left; exact Hp | exact Ha].
    + constructor; [ | exact Hnd].
      intros Hi'. apply Hfresh. apply elem_of_app in Hi'.
      destruct Hi' as [Hi' | Hi'].
      * apply list_elem_of_fmap in Hi'. destruct Hi' as (r & -> & Hr).
        apply Hlive in Hr. apply list_elem_of_fmap. exists (index r, request_json r).
        split; [reflexivity | exact Hr].
      * apply list_elem_of_fmap in Hi'. destruct Hi' as ([j response] & -> & Hr).
        destruct (Hres j response Hr) as (rj' & Hp & _).
        apply list_elem_of_fmap. exists (j, rj'). split; [reflexivity | exact Hp].
    + intros Hlast. apply Z.eqb_eq in Hlast. unfold last_index in Hlast.
      destruct rest; [reflexivity | simpl in Hlen; lia].
  - inversion H; subst s1; clear H.
    exists pulled.
    destruct Hc as [Hsup Hst Hbal Hin Hsuc Hfail Herr Hlive Hres Hnd Hex].
    unfold live in *. rewrite Hnext, Hretry in *. simpl in *.
    constructor; unfold live; simpl; rewrite ?Hretry, ?Hnext; simpl; assumption.
Qed.

Lemma submit_next_request_consistent (pulled : list (Z * RequestJson))
    (validate : option Exception) (s s' : State) :
  consistent pulled s → submit_next_request validate s = inr s' →
  consistent pulled s'.
Proof.
  intros Hc H. unfold submit_next_request in H.
  destruct (next_request s) as [r | ] eqn:Hnext.
  2:{ inversion H; subst. exact Hc. }
  destruct Hc as [Hsup Hst Hbal Hin Hsuc Hfail Herr Hlive Hres Hnd Hex].
  unfold live, tracker_balanced in *. rewrite Hnext in *.
  change (option_list (Some r)) with [r] in *. cbn [app length] in *.
  destruct (admission_test r s).
  - destruct validate as [e | ]; [discriminate | ].
    inversion H; subst s'; clear H.
    constructor; unfold live, tracker_balanced; simpl; try assumption; try lia.
    + rewrite !length_app. cbn [length]. rewrite length_app in Hin. lia.
    + intros x Hx. rewrite !elem_of_app in Hx.
      destruct Hx as [Hx | [Hx | Hx]].
      * apply Hlive. right. apply elem_of_app. left. exact Hx.
      * apply Hlive. right. apply elem_of_app. right. exact Hx.
      * apply list_elem_of_singleton in Hx. subst x. simpl. apply Hlive. left.
    + rewrite fmap_cons in Hnd. rewrite !fmap_app in *. rewrite <- !app_assoc.
      cbn [fmap list_fmap with_attempts_left index app] in *.
      rewrite <- app_assoc in Hnd.
      rewrite <- Permutation_middle, <- Permutation_middle. exact Hnd.
  - inversion H; subst s'; clear H.
    constructor; unfold live, tracker_balanced; simpl; try assumption; try lia.
    + intros _. eauto.
    + intros r' Hr'. apply Hlive. right. exact Hr'.
    + rewrite fmap_cons in Hnd. apply NoDup_cons in Hnd. tauto.
Qed.

Lemma complete_consistent (pulled : list (Z * RequestJson)) (n : nat)
    (r : APIRequest) (o : Outcome Response) (t : Q) (s : State) :
  consistent pulled s → executor s !! n = Some r →
  (∀ response, o = Returned response → answers (request_json r) response) →
  consistent pulled (call_api r o t (with_executor (delete n (executor s)) s)).
Proof.
  intros Hc Hn Hans.
  set (s0 := with_executor (delete n (executor s)) s).
  destruct (call_api_effect r o t s0)
    as (Enext & Eexec & Eiter & Eexh & _ & _ & _ & _ & Estarted & Ecases).
  set (s' := call_api r o t s0) in *.
  set (L := option_list (next_request s) ++ retry_queue s ++ delete n (executor s)).
  destruct Hc as [Hsup Hst Hbal Hin Hsuc Hfail Herr Hlive Hres Hnd Hex].
  pose proof (delete_Permutation _ _ _ Hn) as Hperm.
  assert (HL : live s ≡ₚ r :: L).
  { unfold live, L. rewrite Hperm at 1.
    rewrite <- !Permutation_middle. reflexivity. }
  assert (Hin' : num_tasks_in_progress (status_tracker s) = Z.of_nat (S (length L))).
  { rewrite Hin, HL. reflexivity. }
  assert (Hlive' : ∀ x, x ∈ r :: L → (index x, request_json x) ∈ pulled).
  { intros x Hx. apply Hlive. rewrite HL. exact Hx. }
  assert (Hnd' : NoDup (index r :: (index <$> L) ++ (results s).*1)).
  { rewrite HL in Hnd. exact Hnd. }
  clear Hin Hlive Hnd HL Hperm.
  unfold tracker_balanced in *.
  destruct Ecases as [(response & -> & Eres & Eretry & Ein & Esuc & Efail & Eerr)
    | [(e & r' & -> & Eretry & Eidx & Ejson & _ & _ & _ & Eres & Ein & Esuc & Efail & Eerr)
      | (e & -> & Eretry & Eres & Ein & Esuc & Efail & Eerr)]].
  - assert (Elive : live s' = L).
    { unfold live, L. rewrite Enext, Eretry, Eexec. reflexivity. }
    constructor; unfold tracker_balanced;
      rewrite ?Elive, ?Eiter, ?Eexh, ?Estarted, ?Ein, ?Esuc, ?Efail, ?Eerr, ?Eres;
      simpl; try assumption; try lia.
    + rewrite length_app. simpl. lia.
    + intros x Hx. apply Hlive'. right. exact Hx.
    + intros i resp Hi. apply elem_of_app in Hi. destruct Hi as [Hi | Hi].
      * apply Hres, Hi.
      * apply list_elem_of_singleton in Hi. inversion Hi; subst.
        exists (request_json r). split; [apply Hlive'; left | apply Hans; reflexivity].
    + rewrite fmap_app. cbn [fmap list_fmap fst].
      rewrite app_assoc, <- Permutation_cons_append. exact Hnd'.
  - assert (Elive : live s' ≡ₚ r' :: L).
    { unfold live, L. rewrite Enext, Eretry, Eexec. simpl.
      rewrite <- !app_assoc. cbn [app]. rewrite <- !Permutation_middle. reflexivity. }
    constructor; unfold tracker_balanced;
      rewrite ?Elive, ?Eiter, ?Eexh, ?Estarted, ?Ein, ?Esuc, ?Efail, ?Eerr, ?Eres;
      simpl; try assumption; try lia.
    + intros x Hx. rewrite Elive in Hx.
      apply elem_of_cons in Hx. destruct Hx as [-> | Hx].
      * rewrite Eidx, Ejson. apply Hlive'. left.
      * apply Hlive'. right. exact Hx.
    + rewrite Eidx. exact Hnd'.
  - assert (Elive : live s' = L).
    { unfold live, L. rewrite Enext, Eretry, Eexec. reflexivity. }
    constructor; unfold tracker_balanced;
      rewrite ?Elive, ?Eiter, ?Eexh, ?Estarted, ?Ein, ?Esuc, ?Efail, ?Eres;
      simpl; try assumption; try lia.
    + intros _. exact Eerr.
    + intros x Hx. apply Hlive'. right. exact Hx.
    + apply NoDup_cons in Hnd'. tauto.
Qed.

Lemma step_consistent (pulled : list (Z * RequestJson)) (ev : Event Response)
    (s s' : State) :
  consistent pulled s → answered num_tokens_consumed_from_request P answers [ev] s →
  step ev s = Continue s' ∨ step ev s = Break s' →
  ∃ pulled', consistent pulled' s'.
Proof.
  intros Hc [Hans _] Hstep.
  destruct ev as [t_new t_update validate | | n o t]; simpl in Hstep.
  - destruct (pc s); [ | destruct Hstep; discriminate].
    unfold dispatch in Hstep.
    destruct (get_next_request t_new s) as [e | s1] eqn:Hget;
      [destruct Hstep; discriminate | ].
    destruct (get_next_request_consistent _ _ _ _ Hc Hget) as [pulled' Hc1].
    destruct (submit_next_request validate (update_capacity P t_update s1))
      as [e | s2] eqn:Hsub; [destruct Hstep; discriminate | ].
    exists pulled'.
    assert (Hc2 : consistent pulled' s2).
    { eapply submit_next_request_consistent; [ | exact Hsub].
      eapply consistent_agree; [ .. | exact Hc1]; reflexivity. }
    destruct Hstep as [Hstep | Hstep]; inversion Hstep; subst s'.
    eapply consistent_agree; [ .. | exact Hc2]; reflexivity.
  - exists pulled. destruct (pc s); [destruct Hstep; discriminate | ].
    destruct (all_tasks_finished s);
      destruct Hstep as [Hstep | Hstep]; inversion Hstep; subst s'.
    + exact Hc.
    + eapply consistent_agree; [ .. | exact Hc]; reflexivity.
  - exists pulled.
    destruct (executor s !! n) as [r | ] eqn:Hn; [ | destruct Hstep; discriminate].
    destruct Hstep as [Hstep | Hstep]; inversion Hstep; subst s'.
    apply complete_consistent; [exact Hc | exact Hn | ].
    intros response ->. exact Hans.
Qed.

Lemma run_consistent (evs : list (Event Response)) (pulled : list (Z * RequestJson))
    (s s' : State) :
  consistent pulled s → answered num_tokens_consumed_from_request P answers evs s →
  run evs s = Continue s' ∨ run evs s = Break s' →
  ∃ pulled', consistent pulled' s'.
Proof.
  revert pulled s.
  induction evs as [ | ev evs IH]; intros pulled s Hc Hans Hrun; simpl in Hrun.
  - exists pulled. destruct Hrun as [Hrun | Hrun]; inversion Hrun; subst. exact Hc.
  - destruct Hans as [Hev Hans].
    destruct (step ev s) as [s1 | s1 | e | ] eqn:Hstep.
    + destruct (step_consistent pulled ev s s1 Hc) as [pulled1 Hc1].
      * split; [exact Hev | rewrite Hstep; exact I].
      * left. exact Hstep.
      * eapply IH; eauto.
    + destruct Hrun as [Hrun | Hrun]; inversion Hrun; subst.
      eapply (step_consistent pulled ev s s' Hc).
      * split; [exact Hev | rewrite Hstep; exact I].
      * right. exact Hstep.
    + destruct Hrun; discriminate.
    + destruct Hrun; discriminate.
Qed.

End Consistency.

(** ** Leaving the loop *)

Lemma run_break (evs : list (Event Response)) (s s' : State) :
  run evs s = Break s' → all_tasks_finished s' = true.
Proof.
  revert s.
  induction evs as [ | ev evs IH]; intros s Hrun; simpl in Hrun; [discriminate | ].
  destruct (step ev s) as [s1 | s1 | e | ] eqn:Hstep; try discriminate.
  - eapply IH, Hrun.
  - inversion Hrun; subst s1; clear Hrun.
    destruct ev as [t_new t_update validate | | n o t]; simpl in Hstep.
    + destruct (pc s); [ | discriminate].
      destruct (dispatch _ _ t_new t_update validate s); discriminate.
    + destruct (pc s); [discriminate | ].
      destruct (all_tasks_finished s) eqn:Hfin; inversion Hstep; subst. exact Hfin.
    + destruct (executor s !! n); discriminate.
Qed.

Lemma index_le_total : Total (@index_le Response).
Proof. intros a b. unfold index_le. lia. Qed.

Lemma index_le_trans : Transitive (@index_le Response).
Proof. intros a b c. unfold index_le. lia. Qed.

Lemma Z_le_antisymm : AntiSymm (=) Z.le.
Proof. intros a b. lia. Qed.

(** Sorting a result list that holds exactly one entry per request puts
    the entry of request [i] at position [i]. *)
Lemma sorted_results_in_order (answers : RequestJson → Response → Prop)
    (reqs : list RequestJson) (res : list (Z * Response)) :
  NoDup res.*1 →
  (∀ i response, (i, response) ∈ res →
     ∃ rj, (i, rj) ∈ enumerate reqs ∧ answers rj response) →
  length res = length reqs →
  Forall2 answers reqs (sorted res).*2.
Proof.
  intros Hnd Hres Hlen.
  pose proof (@merge_sort_Permutation _ index_le _ res) as Hperm.
  fold (sorted res) in Hperm.
  assert (Hkeys : res.*1 ≡ₚ (enumerate reqs).*1).
  { apply submseteq_length_Permutation.
    - apply NoDup_submseteq; [exact Hnd | ].
      intros i Hi. apply list_elem_of_fmap in Hi.
      destruct Hi as ([j response] & -> & Hj).
      destruct (Hres j response Hj) as (rj & Hrj & _).
      apply list_elem_of_fmap. exists (j, rj). split; [reflexivity | exact Hrj].
    - rewrite !length_fmap. unfold enumerate.
      rewrite enumerate_from_length, Hlen. reflexivity. }
  assert (Hfst : (sorted res).*1 = (enumerate reqs).*1).
  { apply (@StronglySorted_unique Z Z.le Z_le_antisymm).
    - apply (StronglySorted_fmap _ index_le); [auto | ].
      apply Sorted_StronglySorted; [apply index_le_trans | ].
      apply Sorted_merge_sort. apply index_le_total.
    - apply enumerate_from_sorted.
    - rewrite Hperm. exact Hkeys. }
  apply Forall2_same_length_lookup_2.
  - rewrite length_fmap, Hperm. symmetry. exact Hlen.
  - intros k rj response Hk Hout.
    rewrite list_lookup_fmap in Hout.
    destruct (sorted res !! k) as [[i response'] | ] eqn:Hs; [ | discriminate].
    simpl in Hout. inversion Hout; subst response'; clear Hout.
    assert (Hi : (enumerate reqs).*1 !! k = Some i).
    { rewrite <- Hfst, list_lookup_fmap, Hs. reflexivity. }
    rewrite list_lookup_fmap in Hi.
    destruct (enumerate reqs !! k) as [[i' rj0] | ] eqn:He; [ | discriminate].
    simpl in Hi. inversion Hi; subst i'; clear Hi.
    destruct (enumerate_from_lookup _ _ _ _ _ He) as [Hik _].
    assert (Hin : (i, response) ∈ res).
    { rewrite <- Hperm. eapply list_elem_of_lookup_2, Hs. }
    destruct (Hres i response Hin) as (rj' & Hrj' & Hans).
    apply list_elem_of_lookup in Hrj'. destruct Hrj' as [k' Hk'].
    destruct (enumerate_from_lookup _ _ _ _ _ Hk') as [Hik' Hreq'].
    assert (k' = k) by lia. subst k'.
    rewrite Hk in Hreq'. inversion Hreq'; subst rj'. exact Hans.
Qed.

(** What the bookkeeping says once the loop has been left. *)
Lemma consistent_at_break (answers : RequestJson → Response → Prop)
    (pulled : list (Z * RequestJson)) (s : State) :
  consistent P answers pulled s → all_tasks_finished s = true →
  pulled = enumerate (requests P)
  ∧ live s = []
  ∧ Z.of_nat (length (requests P))
    = Z.of_nat (length (results s)) + num_tasks_failed (status_tracker s).
Proof.
  intros [Hsup Hst Hbal Hin Hsuc Hfail Herr Hlive Hres Hnd Hex] Hfin.
  unfold all_tasks_finished in Hfin. apply andb_true_iff in Hfin.
  destruct Hfin as [Hexh Hzero]. apply Z.eqb_eq in Hzero.
  rewrite (Hex Hexh), app_nil_r in Hsup. subst pulled.
  split; [reflexivity | split].
  - destruct (live s); [reflexivity | ]. simpl in Hin. lia.
  - unfold tracker_balanced in Hbal. unfold enumerate in Hst.
    rewrite enumerate_from_length in Hst. lia.
Qed.

(** ** The two budgets *)

Lemma refilled_within (available ceiling : Z) (seconds : Q) :
  0 ≤ available ≤ ceiling → (0 <= seconds)%Q →
  0 ≤ refilled available ceiling seconds ≤ ceiling.
Proof.
  intros Ha Hs. unfold refilled.
  assert (0 ≤ refill ceiling seconds) by (apply refill_nonneg; [lia | exact Hs]).
  lia.
Qed.

Section Capacity.

Hypothesis estimate_nonneg :
  ∀ rj tokens, num_tokens_consumed_from_request rj = inr tokens → 0 ≤ tokens.

Lemma get_next_request_capacity (t : Q) (s s1 : State) :
  costs_nonneg s → get_next_request t s = inr s1 →
  costs_nonneg s1
  ∧ available_request_capacity s1 = available_request_capacity s
  ∧ available_token_capacity s1 = available_token_capacity s
  ∧ last_update_time s1 = last_update_time s.
Proof.
  intros Hcost H. unfold get_next_request in H. unfold costs_nonneg in *.
  destruct (next_request s) as [r0 | ] eqn:Hnext.
  { inversion H; subst. rewrite Hnext. auto. }
  destruct (retry_queue s) as [ | r q] eqn:Hretry.
  - destruct (requests_iter s) as [ | [i rj] rest] eqn:Hiter.
    { inversion H; subst. rewrite Hnext, Hretry. auto. }
    destruct (num_tokens_consumed_from_request rj) as [e | tokens] eqn:Hest;
      [discriminate | ].
    inversion H; subst s1; clear H. simpl. rewrite Hretry.
    repeat split. intros r Hr. apply elem_of_cons in Hr.
    destruct Hr as [-> | Hr]; [simpl; eapply estimate_nonneg, Hest | ].
    apply Hcost. exact Hr.
  - inversion H; subst s1; clear H. simpl. repeat split. exact Hcost.
Qed.

Lemma submit_next_request_capacity (validate : option Exception) (s s' : State) :
  costs_nonneg s → capacity_within P s → submit_next_request validate s = inr s' →
  costs_nonneg s' ∧ capacity_within P s'
  ∧ last_update_time s' = last_update_time s.
Proof.
  intros Hcost Hcap H. unfold submit_next_request in H.
  unfold costs_nonneg, capacity_within in *.
  destruct (next_request s) as [r | ] eqn:Hnext.
  2:{ inversion H; subst. rewrite Hnext. auto. }
  change (option_list (Some r)) with [r] in Hcost. cbn [app] in Hcost.
  assert (Hr : 0 ≤ token_consumption r) by (apply Hcost; left).
  destruct (admission_test r s) eqn:Htest.
  - destruct validate as [e | ]; [discriminate | ].
    inversion H; subst s'; clear H. simpl.
    unfold admission_test in Htest. apply andb_true_iff in Htest.
    destruct Htest as [H1 H2]. apply Z.leb_le in H1, H2.
    split; [ | split; [lia | reflexivity]].
    intros x Hx. rewrite !elem_of_app in Hx.
    destruct Hx as [Hx | [Hx | Hx]].
    + apply Hcost. right. apply elem_of_app. left. exact Hx.
    + apply Hcost. right. apply elem_of_app. right. exact Hx.
    + apply list_elem_of_singleton in Hx. subst x. exact Hr.
  - inversion H; subst s'; clear H. simpl.
    split; [ | split; [exact Hcap | reflexivity]].
    intros x Hx. apply Hcost. right. exact Hx.
Qed.

Lemma step_capacity (ev : Event Response) (s s' : State) :
  costs_nonneg s → capacity_within P s →
  clock_nondecreasing (last_update_time s) [ev] →
  step ev s = Continue s' ∨ step ev s = Break s' →
  costs_nonneg s' ∧ capacity_within P s'
  ∧ last_update_time s'
    = match ev with Dispatch _ t_update _ => t_update | _ => last_update_time s end.
Proof.
  intros Hcost Hcap Hclock Hstep.
  destruct ev as [t_new t_update validate | | n o t]; simpl in Hstep.
  - destruct (pc s); [ | destruct Hstep; discriminate].
    unfold dispatch in Hstep.
    destruct (get_next_request t_new s) as [e | s1] eqn:Hget;
      [destruct Hstep; discriminate | ].
    destruct (get_next_request_capacity _ _ _ Hcost Hget) as (Hcost1 & E1 & E2 & E3).
    destruct (submit_next_request validate (update_capacity P t_update s1))
      as [e | s2] eqn:Hsub; [destruct Hstep; discriminate | ].
    destruct Hclock as [Hclock _].
    apply submit_next_request_capacity in Hsub.
    + destruct Hsub as (Hcost2 & Hcap2 & E4).
      destruct Hstep as [Hstep | Hstep]; inversion Hstep; subst s'.
      split; [exact Hcost2 | split; [exact Hcap2 | ]]. simpl in *. exact E4.
    + exact Hcost1.
    + unfold capacity_within in *. simpl. rewrite E1, E2, E3.
      split; apply refilled_within; try tauto; apply elapsed_nonneg, Hclock.
  - destruct (pc s); [destruct Hstep; discriminate | ].
    destruct (all_tasks_finished s);
      destruct Hstep as [Hstep | Hstep]; inversion Hstep; subst s'; auto.
  - destruct (executor s !! n) as [r | ] eqn:Hn; [ | destruct Hstep; discriminate].
    destruct Hstep as [Hstep | Hstep]; inversion Hstep; subst s'; clear Hstep.
    set (s0 := with_executor (delete n (executor s)) s).
    destruct (call_api_effect r o t s0)
      as (Enext & Eexec & _ & _ & Erc & Etc & Et & _ & _ & Ecases).
    set (s' := call_api r o t s0) in *.
    assert (Hr : 0 ≤ token_consumption r).
    { apply Hcost. rewrite !elem_of_app. right; right.
      eapply list_elem_of_lookup_2, Hn. }
    assert (Hdel : ∀ x, x ∈ delete n (executor s) → x ∈ executor s).
    { intros x Hx. rewrite (delete_Permutation _ _ _ Hn). right. exact Hx. }
    split; [ | split; [ | exact Et]].
    + unfold costs_nonneg in *. rewrite Enext, Eexec. simpl.
      intros x Hx. rewrite !elem_of_app in Hx.
      destruct Ecases as [(response & -> & _ & Eretry & _)
        | [(e & r' & -> & Eretry & _ & _ & Etok & _)
          | (e & -> & Eretry & _)]]; rewrite Eretry in Hx; simpl in Hx.
      * apply Hcost. rewrite !elem_of_app. destruct Hx as [Hx | [Hx | Hx]]; auto.
      * rewrite elem_of_app in Hx.
        destruct Hx as [Hx | [[Hx | Hx] | Hx]].
        -- apply Hcost. rewrite !elem_of_app. auto.
        -- apply Hcost. rewrite !elem_of_app. auto.
        -- apply list_elem_of_singleton in Hx. subst x. rewrite Etok. exact Hr.
        -- apply Hcost. rewrite !elem_of_app. auto.
      * apply Hcost. rewrite !elem_of_app. destruct Hx as [Hx | [Hx | Hx]]; auto.
    + unfold capacity_within in *. rewrite Erc, Etc. exact Hcap.
Qed.

Lemma run_capacity (evs : list (Event Response)) (s s' : State) :
  costs_nonneg s → capacity_within P s →
  clock_nondecreasing (last_update_time s) evs →
  run evs s = Continue s' ∨ run evs s = Break s' →
  capacity_within P s'.
Proof.
  revert s.
  induction evs as [ | ev evs IH]; intros s Hcost Hcap Hclock Hrun; simpl in Hrun.
  - destruct Hrun as [Hrun | Hrun]; inversion Hrun; subst. exact Hcap.
  - assert (Hclock1 : clock_nondecreasing (last_update_time s) [ev]).
    { destruct ev; simpl in *; tauto. }
    destruct (step ev s) as [s1 | s1 | e | ] eqn:Hstep.
    + destruct (step_capacity ev s s1 Hcost Hcap Hclock1) as (Hcost1 & Hcap1 & Et);
        [left; exact Hstep | ].
      apply (IH s1 Hcost1 Hcap1); [ | exact Hrun].
      rewrite Et. destruct ev; simpl in *; tauto.
    + destruct (step_capacity ev s s1 Hcost Hcap Hclock1) as (Hcost1 & Hcap1 & Et);
        [right; exact Hstep | ].
      destruct Hrun as [Hrun | Hrun]; inversion Hrun; subst. exact Hcap1.
    + destruct Hrun; discriminate.
    + destruct Hrun; discriminate.
Qed.

End Capacity.

(** ** Results about whole runs *)

Lemma answered_trivially (evs : list (Event Response)) (s : State) :
  answered num_tokens_consumed_from_request P (λ _ _, True) evs s.
Proof.
  revert s.
  induction evs as [ | ev evs IH]; intros s; simpl; [exact I | ].
  split.
  - destruct ev as [ | | n [response | e] t]; try exact I.
    destruct (executor s !! n); exact I.
  - destruct (step ev s); try exact I. apply IH.
Qed.

(** C6. When a run returns normally, the output has one entry per
    request, and the entry at position [i] is a response that was
    returned by a call made for request [i], in whatever order the calls
    finished. *)
Theorem output_in_request_order (answers : RequestJson → Response → Prop)
    (now : Q) (evs : list (Event Response)) (output : list Response) :
  answered num_tokens_consumed_from_request P answers evs (initial_state P now) →
  process_api_requests num_tokens_consumed_from_request P now evs
    = Some (Return output) →
  length output = length (requests P)
  ∧ Forall2 answers (requests P) output.
Proof.
  intros Hans Hrun. unfold process_api_requests in Hrun.
  destruct (run evs (initial_state P now)) as [s | s | e | ] eqn:Hr; try discriminate.
  inversion Hrun as [Hfinal]; clear Hrun.
  destruct (run_consistent answers evs [] _ s (initial_state_consistent answers now) Hans)
    as [pulled Hc]; [right; exact Hr | ].
  destruct (consistent_at_break answers pulled s Hc (run_break _ _ _ Hr))
    as (-> & Hlive & Hcount).
  unfold final_status in Hfinal.
  destruct (0 <? num_tasks_failed (status_tracker s)) eqn:Hfailed.
  { destruct (throw_original_error P && (length (requests P) =? 1)%nat);
      [destruct (error (status_tracker s)) | ]; discriminate. }
  inversion Hfinal; subst output; clear Hfinal.
  apply Z.ltb_ge in Hfailed.
  pose proof (cons_failed _ _ _ _ Hc) as Hnonneg.
  assert (Hlen : length (results s) = length (requests P)) by lia.
  assert (Hall : Forall2 answers (requests P) (sorted (results s)).*2).
  { apply sorted_results_in_order.
    - pose proof (cons_nodup _ _ _ _ Hc) as Hnd. rewrite Hlive in Hnd. exact Hnd.
    - apply (cons_results _ _ _ _ Hc).
    - exact Hlen. }
  split; [ | exact Hall].
  symmetry. eapply Forall2_length, Hall.
Qed.



(** ** Results about one call and one tick *)

Lemma app_singleton_neq {A : Type} (l : list A) (x : A) : l ++ [x] ≠ l.
Proof.
  intros H. apply (f_equal length) in H. rewrite length_app in H. simpl in H. lia.
Qed.

(** C7. A call that fails with a rate-limit error is put back on the
    retry queue exactly when less than 600 seconds have passed since the
    start time of the request, and is recorded as failed exactly when
    600 seconds or more have passed. *)
Theorem rate_limit_retry_window (self : APIRequest) (e : Exception) (t : Q) (s : State) :
  exc_class e = RateLimitError →
  let s' := call_api self (Raised e) t s in
  let st := status_tracker s in
  let st' := status_tracker s' in
  ((t - start_time self < inject_Z 600)%Q ↔
     (∃ r', retry_queue s' = retry_queue s ++ [r']
            ∧ index r' = index self
            ∧ request_json r' = request_json self
            ∧ token_consumption r' = token_consumption self
            ∧ attempts_left r' = attempts_left self
            ∧ start_time r' = start_time self)
     ∧ num_tasks_failed st' = num_tasks_failed st
     ∧ num_tasks_in_progress st' = num_tasks_in_progress st)
  ∧ ((inject_Z 600 <= t - start_time self)%Q ↔
     retry_queue s' = retry_queue s
     ∧ num_tasks_failed st' = num_tasks_failed st + 1
     ∧ num_tasks_in_progress st' = num_tasks_in_progress st - 1
     ∧ error st' = Some ten_minutes_error).
Proof.
  intros Hclass s' st st'. subst s' st st'. unfold call_api.
  rewrite Hclass. cbn [handler_of].
  destruct (Qlt_le_dec (t - start_time self) (inject_Z 600)) as [Hlt | Hge].
  - split; split.
    + intros _.
      destruct (Qlt_le_dec (inject_Z 60) (t - last_log_time self)); simpl;
        (split; [eexists; repeat split | split; reflexivity]).
    + intros _. exact Hlt.
    + intros Hge. exfalso. exact (Qlt_not_le _ _ Hlt Hge).
    + intros [Hq _]. exfalso.
      destruct (Qlt_le_dec (inject_Z 60) (t - last_log_time self)); simpl in Hq;
        exact (app_singleton_neq _ _ Hq).
  - split; split.
    + intros Hlt. exfalso. exact (Qlt_not_le _ _ Hlt Hge).
    + intros [(r' & Hq & _) _]. exfalso. simpl in Hq.
      symmetry in Hq. exact (app_singleton_neq _ _ Hq).
    + intros _. simpl. repeat split.
    + intros _. exact Hge.
Qed.

(** A candidate that fails the admission test is dropped and recorded
    as failed, whatever its cost. *)
Lemma rejected_candidate_is_dropped (validate : option Exception) (r : APIRequest)
    (s : State) :
  next_request s = Some r → admission_test r s = false →
  ∃ s', submit_next_request validate s = inr s'
        ∧ next_request s' = None
        ∧ retry_queue s' = retry_queue s
        ∧ executor s' = executor s
        ∧ num_tasks_failed (status_tracker s')
          = num_tasks_failed (status_tracker s) + 1
        ∧ error (status_tracker s') = Some max_tokens_error.
Proof.
  intros Hnext Htest. unfold submit_next_request. rewrite Hnext, Htest.
  eexists. split; [reflexivity | ]. simpl. repeat split.
Qed.

(** C3, as the code has it.  The rate-limit handler puts the request
    back with its attempts counter untouched, and every submission takes
    one attempt off the counter: a request taken from the retry queue as
    much as a fresh one. *)
Theorem every_submission_uses_an_attempt (t_new t_update : Q) (s : State) :
  next_request s = None →
  (∀ (self : APIRequest) (e : Exception) (t : Q),
     exc_class e = RateLimitError →
     (t - start_time self < inject_Z 600)%Q →
     ∃ r', retry_queue (call_api self (Raised e) t s) = retry_queue s ++ [r']
           ∧ attempts_left r' = attempts_left self)
  ∧ (∀ r q,
       retry_queue s = r :: q →
       admission_test r (update_capacity P t_update s) = true →
       ∃ s', dispatch num_tokens_consumed_from_request P t_new t_update None s = inr s'
             ∧ retry_queue s' = q
             ∧ executor s' = executor s ++ [with_attempts_left (attempts_left r - 1) r])
  ∧ (∀ i rj rest tokens,
       retry_queue s = [] →
       requests_iter s = (i, rj) :: rest →
       num_tokens_consumed_from_request rj = inr tokens →
       admission_test (mkAPIRequest i rj tokens (max_attempts P) t_new t_new)
         (update_capacity P t_update s) = true →
       ∃ s', dispatch num_tokens_consumed_from_request P t_new t_update None s = inr s'
             ∧ executor s'
               = executor s
                 ++ [mkAPIRequest i rj tokens (max_attempts P - 1) t_new t_new]).
Proof.
  intros Hnext. split; [ | split].
  - intros self e t Hclass Hlt. unfold call_api.
    rewrite Hclass. cbn [handler_of].
    destruct (Qlt_le_dec (t - start_time self) (inject_Z 600)) as [_ | Hge];
      [ | exfalso; exact (Qlt_not_le _ _ Hlt Hge)].
    destruct (Qlt_le_dec (inject_Z 60) (t - last_log_time self)); simpl;
      eexists; split; reflexivity.
  - intros r q Hretry Htest.
    unfold dispatch, get_next_request. rewrite Hnext, Hretry.
    unfold submit_next_request. cbn [next_request update_capacity with_capacity log
      with_next_request with_retry_queue].
    unfold admission_test in *. simpl in Htest |- *.
    rewrite Htest. eexists. split; [reflexivity | ]. simpl. split; reflexivity.
  - intros i rj rest tokens Hretry Hiter Hest Htest.
    unfold dispatch, get_next_request. rewrite Hnext, Hretry, Hiter, Hest.
    unfold submit_next_request. cbn [next_request update_capacity with_capacity
      with_tracker with_supply with_next_request].
    unfold admission_test in *. simpl in Htest |- *.
    rewrite Htest. eexists. split; reflexivity.
Qed.

(** ** Refill over idle ticks *)

Lemma idle_updates_capacity (times : list Q) (s : State) :
  0 ≤ max_requests_per_minute P → 0 ≤ max_tokens_per_minute P →
  available_request_capacity s ≤ max_requests_per_minute P →
  available_token_capacity s ≤ max_tokens_per_minute P →
  nondecreasing_from (last_update_time s) times →
  let s' := idle_updates P times s in
  let t0 := last_update_time s in
  available_request_capacity s'
  = Z.min (available_request_capacity s
           + refill_sum (max_requests_per_minute P) t0 times)
      (max_requests_per_minute P)
  ∧ available_token_capacity s'
    = Z.min (available_token_capacity s
             + refill_sum (max_tokens_per_minute P) t0 times)
        (max_tokens_per_minute P)
  ∧ last_update_time s' = last_time t0 times.
Proof.
  intros Hrpm Htpm. revert s.
  induction times as [ | t times IH]; intros s Hr Ht Hmono; simpl in *.
  - repeat split; lia.
  - destruct Hmono as [Hle Hmono].
    specialize (IH (update_capacity P t s)). simpl in IH.
    unfold refilled in IH.
    destruct IH as (IH1 & IH2 & IH3); [lia | lia | exact Hmono | ].
    unfold idle_updates in *. rewrite IH1, IH2, IH3.
    pose proof (refill_sum_nonneg (max_requests_per_minute P) times t Hrpm Hmono).
    pose proof (refill_sum_nonneg (max_tokens_per_minute P) times t Htpm Hmono).
    repeat split; lia.
Qed.

(** C2, as the code has it.  Every capacity update adds the integer
    part of [ceiling * elapsed / 60] and moves the update time forward,
    so after any number of idle ticks a budget has grown by the sum of
    these integer parts, capped at the ceiling; the sum never exceeds
    the integer part of [ceiling * T / 60] for the whole span [T], and a
    tick that is shorter than [60 / ceiling] seconds adds nothing. *)
Theorem idle_refill_is_truncated_per_tick (times : list Q) (s : State) :
  0 ≤ max_requests_per_minute P → 0 ≤ max_tokens_per_minute P →
  available_request_capacity s ≤ max_requests_per_minute P →
  available_token_capacity s ≤ max_tokens_per_minute P →
  nondecreasing_from (last_update_time s) times →
  let s' := idle_updates P times s in
  let t0 := last_update_time s in
  let T := (last_time t0 times - t0)%Q in
  (available_request_capacity s'
   = Z.min (available_request_capacity s
            + refill_sum (max_requests_per_minute P) t0 times)
       (max_requests_per_minute P)
   ∧ available_request_capacity s ≤ available_request_capacity s'
     ≤ refilled (available_request_capacity s) (max_requests_per_minute P) T)
  ∧ (available_token_capacity s'
     = Z.min (available_token_capacity s
              + refill_sum (max_tokens_per_minute P) t0 times)
         (max_tokens_per_minute P)
     ∧ available_token_capacity s ≤ available_token_capacity s'
       ≤ refilled (available_token_capacity s) (max_tokens_per_minute P) T)
  ∧ last_update_time s' = last_time t0 times
  ∧ (∀ ceiling seconds,
       0 ≤ ceiling → (0 <= seconds)%Q →
       (inject_Z ceiling * seconds < inject_Z 60)%Q →
       refill ceiling seconds = 0).
Proof.
  intros Hrpm Htpm Hr Ht Hmono s' t0 T.
  destruct (idle_updates_capacity times s Hrpm Htpm Hr Ht Hmono) as (E1 & E2 & E3).
  fold s' t0 in E1, E2, E3.
  pose proof (refill_sum_nonneg _ times t0 Hrpm Hmono).
  pose proof (refill_sum_nonneg _ times t0 Htpm Hmono).
  pose proof (refill_sum_le _ times t0 Hrpm Hmono).
  pose proof (refill_sum_le _ times t0 Htpm Hmono).
  subst T. unfold refilled.
  repeat split; try assumption; try lia.
  intros. apply refill_short_tick; assumption.
Qed.

(** ** The empty supply *)

Lemma step_waiting_forever (ev : Event Response) (s : State) :
  waiting_forever s →
  (∃ s', step ev s = Continue s' ∧ waiting_forever s'
         ∧ pc s' = match pc s with LoopTop => LoopCheck | LoopCheck => LoopTop end)
  ∨ step ev s = Disabled.
Proof.
  intros (Hnext & Hretry & Hexec & Hiter & Hexh).
  destruct ev as [t_new t_update validate | | n o t]; simpl.
  - destruct (pc s); [ | right; reflexivity]. left.
    unfold dispatch, get_next_request, submit_next_request.
    rewrite Hnext, Hretry, Hiter. simpl. rewrite Hnext.
    eexists. split; [reflexivity | ]. split; [ | reflexivity].
    unfold waiting_forever. simpl. repeat split; assumption.
  - destruct (pc s); [right; reflexivity | ]. left.
    unfold all_tasks_finished. rewrite Hexh. simpl.
    eexists. split; [reflexivity | ]. split; [ | reflexivity].
    unfold waiting_forever. simpl. repeat split; assumption.
  - rewrite Hexec. simpl. right. reflexivity.
Qed.

Lemma run_waiting_forever (evs : list (Event Response)) (s : State) :
  waiting_forever s →
  (∃ s', run evs s = Continue s') ∨ run evs s = Disabled.
Proof.
  revert s.
  induction evs as [ | ev evs IH]; intros s Hw; simpl.
  - left. exists s. reflexivity.
  - destruct (step_waiting_forever ev s Hw) as [(s' & -> & Hw' & _) | ->].
    + apply IH, Hw'.
    + right. reflexivity.
Qed.

Lemma ticks_waiting_forever (l : list (Q * Q * option Exception)) (s : State) :
  waiting_forever s → pc s = LoopTop →
  ∃ s', run (ticks l) s = Continue s' ∧ waiting_forever s' ∧ pc s' = LoopTop.
Proof.
  revert s.
  induction l as [ | x l IH]; intros s Hw Hpc.
  - exists s. split; [reflexivity | split; assumption].
  - change (run (ticks (x :: l)) s)
      with (run (Dispatch x.1.1 x.1.2 x.2 :: Check :: ticks l) s).
    rewrite run_cons.
    destruct (step_waiting_forever (Dispatch x.1.1 x.1.2 x.2) s Hw)
      as [(s1 & -> & Hw1 & Hpc1) | Hd].
    2:{ simpl in Hd. rewrite Hpc in Hd.
        destruct (dispatch _ _ _ _ _ s); discriminate. }
    rewrite Hpc in Hpc1. rewrite run_cons.
    destruct (step_waiting_forever Check s1 Hw1) as [(s2 & -> & Hw2 & Hpc2) | Hd].
    2:{ simpl in Hd. rewrite Hpc1 in Hd.
        destruct (all_tasks_finished s1); discriminate. }
    rewrite Hpc1 in Hpc2. apply IH; assumption.
Qed.

(** C5 on the empty list: whatever the schedule, the loop is never left
    and nothing is returned or raised; in particular it is still running
    after any number of ticks. *)
Theorem empty_supply_never_leaves_the_loop (now : Q) :
  requests P = [] →
  (∀ evs : list (Event Response),
     process_api_requests num_tokens_consumed_from_request P now evs = None)
  ∧ (∀ l, ∃ s : State, run (ticks l) (initial_state P now) = Continue s
               ∧ requests_exhausted s = false).
Proof.
  intros Hempty.
  assert (Hw : waiting_forever (initial_state P now : State)).
  { unfold waiting_forever. simpl. rewrite Hempty. repeat split. }
  split.
  - intros evs. unfold process_api_requests.
    destruct (run_waiting_forever evs _ Hw) as [[s ->] | ->]; reflexivity.
  - intros l.
    destruct (ticks_waiting_forever l _ Hw eq_refl) as (s & Hrun & Hw' & _).
    exists s. split; [exact Hrun | apply Hw'].
Qed.

(** ** Transient failures *)

Lemma count_log_app (p : LogRecord → bool) (l1 l2 : list LogRecord) :
  count_log p (l1 ++ l2) = (count_log p l1 + count_log p l2)%nat.
Proof. induction l1 as [ | r l1 IH]; simpl; [reflexivity | rewrite IH; lia]. Qed.

Lemma refilled_minute (available ceiling : Z) (seconds : Q) :
  0 ≤ available → (seconds == inject_Z 60)%Q →
  refilled available ceiling seconds = ceiling.
Proof. intros Ha Hs. unfold refilled. rewrite (refill_minute _ _ Hs). lia. Qed.

Lemma refilled_no_time (ceiling : Z) (seconds : Q) :
  (seconds == 0)%Q → refilled ceiling ceiling seconds = ceiling.
Proof. intros Hs. unfold refilled. rewrite (refill_zero _ _ Hs). lia. Qed.

Lemma failing_rounds_app (e : Exception) (start : Z) (n m : nat) :
  @failing_rounds Response e start (n + m)
  = failing_rounds e start n ++ failing_rounds e (start + Z.of_nat n) m.
Proof.
  revert start.
  induction n as [ | n IH]; intros start.
  - simpl. rewrite Z.add_0_r. reflexivity.
  - change (S n + m)%nat with (S (n + m)). cbn [failing_rounds app].
    rewrite IH.
    replace (start + Z.of_nat (S n)) with (start + 1 + Z.of_nat n) by lia.
    reflexivity.
Qed.

(** One tick that takes its candidate from the retry queue and submits it. *)
Lemma dispatch_from_retry_queue (t_new t_update : Q) (s : State) (r : APIRequest)
    (q : list APIRequest) :
  next_request s = None → retry_queue s = r :: q →
  admission_test r (update_capacity P t_update s) = true →
  ∃ s', dispatch num_tokens_consumed_from_request P t_new t_update None s = inr s'
        ∧ (retry_queue s' = q ∧ next_request s' = None
           ∧ executor s' = executor s ++ [with_attempts_left (attempts_left r - 1) r])
        ∧ (requests_iter s' = requests_iter s
           ∧ requests_exhausted s' = requests_exhausted s
           ∧ results s' = results s ∧ pc s' = pc s)
        ∧ status_tracker s' = status_tracker s
        ∧ (available_request_capacity s'
           = refilled (available_request_capacity s) (max_requests_per_minute P)
               (t_update - last_update_time s) - 1
           ∧ available_token_capacity s'
             = refilled (available_token_capacity s) (max_tokens_per_minute P)
                 (t_update - last_update_time s) - token_consumption r
           ∧ last_update_time s' = t_update)
        ∧ logger s' = logger s ++ [LogRetrying (index r)].
Proof.
  intros Hnext Hretry Htest.
  unfold dispatch, get_next_request. rewrite Hnext, Hretry.
  unfold submit_next_request.
  cbn [next_request update_capacity with_capacity log with_next_request with_retry_queue].
  unfold admission_test in *. simpl in Htest |- *.
  rewrite Htest. eexists. split; [reflexivity | ]. simpl. repeat split.
Qed.

(** One tick that reads a fresh request from the supply and submits it. *)
Lemma dispatch_fresh_request (t_new t_update : Q) (s : State) (i : Z)
    (rj : RequestJson) (rest : list (Z * RequestJson)) (tokens : Z) :
  next_request s = None → retry_queue s = [] →
  requests_iter s = (i, rj) :: rest →
  num_tokens_consumed_from_request rj = inr tokens →
  admission_test (mkAPIRequest i rj tokens (max_attempts P) t_new t_new)
    (update_capacity P t_update s) = true →
  ∃ s', dispatch num_tokens_consumed_from_request P t_new t_update None s = inr s'
        ∧ (retry_queue s' = [] ∧ next_request s' = None
           ∧ executor s'
             = executor s ++ [mkAPIRequest i rj tokens (max_attempts P - 1) t_new t_new])
        ∧ (requests_iter s' = rest
           ∧ requests_exhausted s' = (i =? last_index P)
           ∧ results s' = results s ∧ pc s' = pc s)
        ∧ status_tracker s' = start_task (status_tracker s)
        ∧ (available_request_capacity s'
           = refilled (available_request_capacity s) (max_requests_per_minute P)
               (t_update - last_update_time s) - 1
           ∧ available_token_capacity s'
             = refilled (available_token_capacity s) (max_tokens_per_minute P)
                 (t_update - last_update_time s) - tokens
           ∧ last_update_time s' = t_update)
        ∧ logger s' = logger s.
Proof.
  intros Hnext Hretry Hiter Hest Htest.
  unfold dispatch, get_next_request. rewrite Hnext, Hretry, Hiter, Hest.
  unfold submit_next_request.
  cbn [next_request update_capacity with_capacity with_tracker with_supply
       with_next_request].
  unfold admission_test in *. simpl in Htest |- *.
  rewrite Htest. eexists. split; [reflexivity | ]. simpl. rewrite Hretry.
  repeat split.
Qed.

(** A call that fails with a transient error. *)
Lemma call_api_retryable (self : APIRequest) (e : Exception) (t : Q) (s : State) :
  handler_of (exc_class e) = HRetryable →
  let s' := call_api self (Raised e) t s in
  let st := status_tracker s in
  let st' := status_tracker s' in
  logger s' = (logger s ++ [LogStarted (index self)]) ++ [LogFailed (index self) e]
  ∧ (next_request s' = next_request s ∧ executor s' = executor s
     ∧ requests_iter s' = requests_iter s
     ∧ requests_exhausted s' = requests_exhausted s
     ∧ results s' = results s ∧ pc s' = pc s)
  ∧ (available_request_capacity s' = available_request_capacity s
     ∧ available_token_capacity s' = available_token_capacity s
     ∧ last_update_time s' = last_update_time s)
  ∧ (0 < attempts_left self →
     retry_queue s' = retry_queue s ++ [self]
     ∧ num_tasks_in_progress st' = num_tasks_in_progress st
     ∧ num_tasks_failed st' = num_tasks_failed st)
  ∧ (attempts_left self ≤ 0 →
     retry_queue s' = retry_queue s
     ∧ num_tasks_in_progress st' = num_tasks_in_progress st - 1
     ∧ num_tasks_failed st' = num_tasks_failed st + 1
     ∧ error st' = Some e).
Proof.
  intros He. unfold call_api. rewrite He.
  destruct (0 <? attempts_left self) eqn:Hpos; simpl.
  - apply Z.ltb_lt in Hpos. repeat split; lia.
  - apply Z.ltb_ge in Hpos. repeat split; lia.
Qed.

Section Transient.

Variable rj : RequestJson.
Variable tokens : Z.
Variable e : Exception.

Hypothesis transient : handler_of (exc_class e) = HRetryable.
Hypothesis room_for_one_request : 1 ≤ max_requests_per_minute P.
Hypothesis tokens_nonneg : 0 ≤ tokens.
Hypothesis room_for_the_tokens : tokens ≤ max_tokens_per_minute P.

#[local] Abbreviation counts started retrying :=
  (λ l, count_log (is_started 0) l = started ∧ count_log (is_retrying 0) l = retrying).

(** The call of a round and the termination test that follows it, the
    request having been submitted with [a] attempts left. *)
Lemma failing_call (t : Q) (a : Z) (r : APIRequest) (s1 : State) :
  executor s1 = [r] → attempts_left r = a → index r = 0 →
  retry_queue s1 = [] → requests_exhausted s1 = true →
  num_tasks_in_progress (status_tracker s1) = 1 →
  let s2 := call_api r (Raised e) t (with_executor [] (with_pc LoopCheck s1)) in
  (0 < a →
   run [Complete 0 (Raised e) t; Check] (with_pc LoopCheck s1)
   = Continue (with_pc LoopTop s2)
   ∧ retry_queue s2 = [r]
   ∧ num_tasks_in_progress (status_tracker s2) = 1
   ∧ num_tasks_failed (status_tracker s2) = num_tasks_failed (status_tracker s1))
  ∧ (a ≤ 0 →
     run [Complete 0 (Raised e) t; Check] (with_pc LoopCheck s1) = Break s2
     ∧ num_tasks_failed (status_tracker s2) = num_tasks_failed (status_tracker s1) + 1
     ∧ error (status_tracker s2) = Some e)
  ∧ logger s2 = (logger s1 ++ [LogStarted 0]) ++ [LogFailed 0 e]
  ∧ (next_request s2 = next_request s1 ∧ executor s2 = []
     ∧ requests_iter s2 = requests_iter s1 ∧ requests_exhausted s2 = true)
  ∧ (available_request_capacity s2 = available_request_capacity s1
     ∧ available_token_capacity s2 = available_token_capacity s1
     ∧ last_update_time s2 = last_update_time s1).
Proof.
  intros Hex Ha Hidx Hretry Hexh Hin s2.
  set (s1' := with_executor [] (with_pc LoopCheck s1)) in *.
  destruct (call_api_retryable r e t s1' transient)
    as (Hlog & (Hn & Hx & Hit & Hxh & Hres & Hpc) & (Hrc & Htc & Hlt) & Hpos & Hneg).
  fold s2 in Hlog, Hn, Hx, Hit, Hxh, Hres, Hpc, Hrc, Htc, Hlt, Hpos, Hneg.
  assert (Hstep : step (Complete 0 (Raised e) t) (with_pc LoopCheck s1) = Continue s2).
  { unfold step. cbn [executor with_pc]. rewrite Hex. reflexivity. }
  assert (Hx' : executor s2 = []).
  { rewrite Hx. reflexivity. }
  assert (Hpc' : pc s2 = LoopCheck) by (rewrite Hpc; reflexivity).
  assert (Hxh' : requests_exhausted s2 = true) by (rewrite Hxh; exact Hexh).
  rewrite Hidx in Hlog.
  split; [ | split; [ | split; [exact Hlog | split]]].
  - intros Hapos. rewrite Ha in Hpos. destruct (Hpos Hapos) as (Hq & Hin2 & Hf2).
    assert (Hin2' : num_tasks_in_progress (status_tracker s2) = 1)
      by (rewrite Hin2; exact Hin).
    split; [ | split; [ | split]].
    + rewrite run_cons, Hstep, run_cons. unfold step, all_tasks_finished.
      rewrite Hpc', Hxh', Hin2'. reflexivity.
    + rewrite Hq. subst s1'. cbn [retry_queue with_executor with_pc].
      rewrite Hretry. reflexivity.
    + exact Hin2'.
    + exact Hf2.
  - intros Haneg. rewrite Ha in Hneg.
    destruct (Hneg Haneg) as (Hq & Hin2 & Hf2 & He2).
    assert (Hin2' : num_tasks_in_progress (status_tracker s2) = 0).
    { rewrite Hin2. subst s1'. cbn [status_tracker with_executor with_pc].
      rewrite Hin. reflexivity. }
    split; [ | split].
    + rewrite run_cons, Hstep, run_cons. unfold step, all_tasks_finished.
      rewrite Hpc', Hxh', Hin2'. reflexivity.
    + exact Hf2.
    + exact He2.
  - repeat split; assumption.
  - repeat split; assumption.
Qed.

Lemma room_for_the_request (available_requests available_tokens : Z) :
  ((1 <=? available_requests) && (tokens <=? available_tokens) = true)
  ↔ 1 ≤ available_requests ∧ tokens ≤ available_tokens.
Proof. rewrite andb_true_iff, !Z.leb_le. reflexivity. Qed.

Lemma retry_round (j : nat) (a : Z) (s : State) :
  (1 ≤ j)%nat →
  awaiting_retry rj tokens j a (counts j (j - 1)%nat) s →
  (1 < a →
   ∃ s', run (failing_rounds e (Z.of_nat j) 1) s = Continue s'
         ∧ awaiting_retry rj tokens (S j) (a - 1) (counts (S j) j) s')
  ∧ (a ≤ 1 →
     ∃ s', run (failing_rounds e (Z.of_nat j) 1) s = Break s'
           ∧ num_tasks_failed (status_tracker s') = 1
           ∧ error (status_tracker s') = Some e
           ∧ count_started 0 s' = S j ∧ count_retrying 0 s' = j).
Proof.
  intros Hj (r & Hq & (Hi & Hrj & Htok & Hatt) & (Hn & Hx & Hit & Hexh & Hpc)
             & (Hin & Hfail) & (Hrc & Htc & Ht) & (Hst & Hre)).
  set (t := inject_Z (60 * Z.of_nat j)).
  assert (Hmin : (t - last_update_time s == inject_Z 60)%Q).
  { subst t. rewrite Ht. unfold Qminus. rewrite <- inject_Z_opp, <- inject_Z_plus.
    rewrite inject_Z_injective. lia. }
  assert (Htest : admission_test r (update_capacity P t s) = true).
  { unfold admission_test, update_capacity.
    cbn [available_request_capacity available_token_capacity with_capacity].
    rewrite !(refilled_minute _ _ _) by assumption.
    rewrite Htok. apply room_for_the_request. split; assumption. }
  destruct (dispatch_from_retry_queue t t s r [] Hn Hq Htest)
    as (s1 & Hd & (Hq1 & Hn1 & Hx1) & (Hit1 & Hexh1 & Hres1 & Hpc1) & Hst1
        & (Hrc1 & Htc1 & Hlt1) & Hlog1).
  rewrite refilled_minute in Hrc1 by assumption.
  rewrite refilled_minute in Htc1 by assumption.
  rewrite Hx in Hx1. cbn [app] in Hx1.
  set (r' := with_attempts_left (attempts_left r - 1) r) in *.
  assert (Hin1 : num_tasks_in_progress (status_tracker s1) = 1)
    by (rewrite Hst1; exact Hin).
  assert (Hexh1' : requests_exhausted s1 = true) by (rewrite Hexh1; exact Hexh).
  destruct (failing_call t (a - 1) r' s1 Hx1) as (Hpos & Hneg & Hlog2
      & (Hn2 & Hx2 & Hit2 & Hexh2) & (Hrc2 & Htc2 & Hlt2));
    [subst r'; simpl; lia | exact Hi | exact Hq1 | exact Hexh1' | exact Hin1 | ].
  set (s2 := call_api r' (Raised e) t (with_executor [] (with_pc LoopCheck s1))) in *.
  assert (Hstep : step (Dispatch t t None) s = Continue (with_pc LoopCheck s1)).
  { unfold step. rewrite Hpc, Hd. reflexivity. }
  assert (Hrun : run (failing_rounds e (Z.of_nat j) 1) s
                 = run [Complete 0 (Raised e) t; Check] (with_pc LoopCheck s1)).
  { cbn [failing_rounds app]. fold t. rewrite run_cons, Hstep. reflexivity. }
  assert (Hcounts : counts (S j) j (logger s2)).
  { rewrite Hlog2, Hlog1, Hi, !count_log_app, Hst, Hre. simpl. lia. }
  split.
  - intros Ha. destruct Hpos as (Hrun2 & Hq2 & Hin2 & Hf2); [lia | ].
    exists (with_pc LoopTop s2). split; [rewrite Hrun; exact Hrun2 | ].
    exists r'. split; [exact Hq2 | ].
    split; [subst r'; simpl; repeat split; try assumption; lia | ].
    split; [simpl; rewrite Hn2, Hit2, Hit1; repeat split; assumption | ].
    split; [simpl; rewrite Hf2, Hst1; split; assumption | ].
    split; [ | exact Hcounts].
    simpl. rewrite Hrc2, Htc2, Hlt2, Hrc1, Htc1, Hlt1, Htok.
    repeat split; try lia.
    subst t. apply inject_Z_injective. lia.
  - intros Ha. destruct Hneg as (Hrun2 & Hf2 & He2); [lia | ].
    exists s2. split; [rewrite Hrun; exact Hrun2 | ].
    split; [rewrite Hf2, Hst1, Hfail; reflexivity | ].
    split; [exact He2 | exact Hcounts].
Qed.

Lemma retry_round_continues (j : nat) (a : Z) (s : State) :
  (1 ≤ j)%nat → 1 < a →
  awaiting_retry rj tokens j a (counts j (j - 1)%nat) s →
  ∃ s', run (failing_rounds e (Z.of_nat j) 1) s = Continue s'
        ∧ awaiting_retry rj tokens (S j) (a - 1) (counts (S j) j) s'.
Proof. intros Hj Ha Hs. apply (retry_round j a s Hj Hs), Ha. Qed.

Lemma retry_round_breaks (j : nat) (s : State) :
  (1 ≤ j)%nat →
  awaiting_retry rj tokens j 1 (counts j (j - 1)%nat) s →
  ∃ s', run (failing_rounds e (Z.of_nat j) 1) s = Break s'
        ∧ num_tasks_failed (status_tracker s') = 1
        ∧ error (status_tracker s') = Some e
        ∧ count_started 0 s' = S j ∧ count_retrying 0 s' = j.
Proof. intros Hj Hs. apply (retry_round j 1 s Hj Hs). lia. Qed.

Hypothesis single_request : requests P = [rj].
Hypothesis estimate : num_tokens_consumed_from_request rj = inr tokens.

Lemma first_round :
  (1 < max_attempts P →
   ∃ s' : State,
     run (failing_rounds e 0 1) (initial_state P 0) = Continue s'
     ∧ awaiting_retry rj tokens 1 (max_attempts P - 1) (counts 1%nat 0%nat) s')
  ∧ (max_attempts P ≤ 1 →
     ∃ s' : State,
       run (failing_rounds e 0 1) (initial_state P 0) = Break s'
       ∧ num_tasks_failed (status_tracker s') = 1
       ∧ error (status_tracker s') = Some e
       ∧ count_started 0 s' = 1%nat ∧ count_retrying 0 s' = 0%nat).
Proof.
  set (s := initial_state P 0 : State).
  set (t := inject_Z (60 * 0)).
  assert (Hiter : requests_iter s = [(0, rj)]).
  { subst s. simpl. rewrite single_request. reflexivity. }
  assert (Hzero : (t - last_update_time s == 0)%Q) by reflexivity.
  assert (Htest : admission_test (mkAPIRequest 0 rj tokens (max_attempts P) t t)
                    (update_capacity P t s) = true).
  { unfold admission_test, update_capacity.
    cbn [available_request_capacity available_token_capacity with_capacity
         token_consumption].
    subst s. cbn [initial_state available_request_capacity available_token_capacity
                  last_update_time].
    rewrite !(refilled_no_time _ _ Hzero).
    apply room_for_the_request. split; assumption. }
  destruct (dispatch_fresh_request t t s 0 rj [] tokens eq_refl eq_refl Hiter estimate Htest)
    as (s1 & Hd & (Hq1 & Hn1 & Hx1) & (Hit1 & Hexh1 & Hres1 & Hpc1) & Hst1
        & (Hrc1 & Htc1 & Hlt1) & Hlog1).
  assert (Hlast : (0 =? last_index P) = true).
  { unfold last_index. rewrite single_request. reflexivity. }
  rewrite Hlast in Hexh1.
  change (available_request_capacity s) with (max_requests_per_minute P) in Hrc1.
  change (available_token_capacity s) with (max_tokens_per_minute P) in Htc1.
  rewrite (refilled_no_time _ _ Hzero) in Hrc1.
  rewrite (refilled_no_time _ _ Hzero) in Htc1.
  change (executor s) with (@nil APIRequest) in Hx1. cbn [app] in Hx1.
  set (r' := mkAPIRequest 0 rj tokens (max_attempts P - 1) t t) in *.
  assert (Hin1 : num_tasks_in_progress (status_tracker s1) = 1)
    by (rewrite Hst1; reflexivity).
  destruct (failing_call t (max_attempts P - 1) r' s1 Hx1 eq_refl eq_refl Hq1 Hexh1 Hin1)
    as (Hpos & Hneg & Hlog2 & (Hn2 & Hx2 & Hit2 & Hexh2) & (Hrc2 & Htc2 & Hlt2)).
  set (s2 := call_api r' (Raised e) t (with_executor [] (with_pc LoopCheck s1))) in *.
  assert (Hstep : step (Dispatch t t None) s = Continue (with_pc LoopCheck s1)).
  { unfold step. change (pc s) with LoopTop. cbv iota. rewrite Hd. reflexivity. }
  assert (Hrun : run (failing_rounds e 0 1) s
                 = run [Complete 0 (Raised e) t; Check] (with_pc LoopCheck s1)).
  { cbn [failing_rounds app]. fold t. rewrite run_cons, Hstep. reflexivity. }
  assert (Hcounts : counts 1%nat 0%nat (logger s2)).
  { rewrite Hlog2, Hlog1. split; reflexivity. }
  split.
  - intros Ha. destruct Hpos as (Hrun2 & Hq2 & Hin2 & Hf2); [lia | ].
    exists (with_pc LoopTop s2). split; [rewrite Hrun; exact Hrun2 | ].
    exists r'. split; [exact Hq2 | ].
    split; [subst r'; simpl; repeat split | ].
    split; [simpl; rewrite Hn2, Hit2, Hit1; repeat split; assumption | ].
    split; [simpl; rewrite Hf2, Hst1; split; [assumption | reflexivity] | ].
    split; [ | exact Hcounts].
    simpl. rewrite Hrc2, Htc2, Hlt2, Hrc1, Htc1, Hlt1.
    repeat split; try lia.
  - intros Ha. destruct Hneg as (Hrun2 & Hf2 & He2); [lia | ].
    exists s2. split; [rewrite Hrun; exact Hrun2 | ].
    split; [rewrite Hf2, Hst1; reflexivity | ].
    split; [exact He2 | exact Hcounts].
Qed.

Lemma first_round_continues :
  1 < max_attempts P →
  ∃ s' : State,
    run (failing_rounds e 0 1) (initial_state P 0) = Continue s'
    ∧ awaiting_retry rj tokens 1 (max_attempts P - 1) (counts 1%nat 0%nat) s'.
Proof. apply first_round. Qed.

Lemma first_round_breaks :
  max_attempts P ≤ 1 →
  ∃ s' : State,
    run (failing_rounds e 0 1) (initial_state P 0) = Break s'
    ∧ num_tasks_failed (status_tracker s') = 1
    ∧ error (status_tracker s') = Some e
    ∧ count_started 0 s' = 1%nat ∧ count_retrying 0 s' = 0%nat.
Proof. apply first_round. Qed.

Lemma retry_rounds_continue (n : nat) :
  ∀ (j : nat) (a : Z) (s : State),
    (1 ≤ j)%nat → Z.of_nat n < a →
    awaiting_retry rj tokens j a (counts j (j - 1)%nat) s →
    ∃ s', run (failing_rounds e (Z.of_nat j) n) s = Continue s'
          ∧ awaiting_retry rj tokens (j + n) (a - Z.of_nat n)
              (counts (j + n)%nat (j + n - 1)%nat) s'.
Proof.
  induction n as [ | n IH]; intros j a s Hj Ha Hs.
  - exists s. split; [reflexivity | ].
    rewrite Nat.add_0_r, Z.sub_0_r. exact Hs.
  - change (S n) with (1 + n)%nat. rewrite failing_rounds_app, run_app.
    destruct (retry_round_continues j a s Hj ltac:(lia) Hs) as (s1 & -> & Hs1).
    replace (S j - 1)%nat with j in Hs1 by lia.
    destruct (IH (S j) (a - 1) s1 ltac:(lia) ltac:(lia)) as (s2 & Hrun & Hs2).
    { replace (S j - 1)%nat with j by lia. exact Hs1. }
    exists s2. split.
    + rewrite <- Hrun. f_equal. f_equal. lia.
    + replace (j + (1 + n))%nat with (S j + n)%nat by lia.
      replace (a - Z.of_nat (1 + n)) with (a - 1 - Z.of_nat n) by lia.
      exact Hs2.
Qed.

End Transient.


(** ** More about calls and ticks *)


(** X2. A tick that holds no candidate and finds the retry queue non-empty
    takes the head of the queue: nothing is read from the supply, no task
    is started, and the request is either submitted or dropped. *)
Theorem retry_queue_goes_first (t_new t_update : Q) (validate : option Exception)
    (s s' : State) (r : APIRequest) (q : list APIRequest) :
  next_request s = None → retry_queue s = r :: q →
  dispatch num_tokens_consumed_from_request P t_new t_update validate s = inr s' →
  retry_queue s' = q
  ∧ next_request s' = None
  ∧ requests_iter s' = requests_iter s
  ∧ requests_exhausted s' = requests_exhausted s
  ∧ num_tasks_started (status_tracker s') = num_tasks_started (status_tracker s)
  ∧ logger s' = logger s ++ [LogRetrying (index r)]
  ∧ (executor s' = executor s ++ [with_attempts_left (attempts_left r - 1) r]
     ∨ (executor s' = executor s
        ∧ num_tasks_failed (status_tracker s')
          = num_tasks_failed (status_tracker s) + 1)).
Proof.
  intros Hnext Hretry H.
  unfold dispatch, get_next_request in H. rewrite Hnext, Hretry in H.
  unfold submit_next_request in H.
  cbn [next_request update_capacity with_capacity log with_next_request
       with_retry_queue] in H.
  match type of H with
  | (if ?c then _ else _) = _ => destruct c
  end.
  - destruct validate as [e | ]; [discriminate | ].
    inversion H; subst s'. simpl. repeat split. left. reflexivity.
  - inversion H; subst s'. simpl. repeat split. right. split; reflexivity.
Qed.

(** ** Every state of a run *)

Lemma reachable_consistent (now : Q) (evs : list (Event Response)) (s : State) :
  run evs (initial_state P now) = Continue s ∨ run evs (initial_state P now) = Break s →
  ∃ pulled, consistent P (λ _ _, True) pulled s.
Proof.
  intros Hrun.
  exact (run_consistent (λ _ _, True) evs [] _ s
           (initial_state_consistent _ now) (answered_trivially _ _) Hrun).
Qed.

Lemma pulled_position (pulled rest : list (Z * RequestJson)) (i : Z) (rj : RequestJson) :
  enumerate (requests P) = pulled ++ rest → (i, rj) ∈ pulled →
  ∃ j, i = Z.of_nat j ∧ (j < length pulled)%nat ∧ requests P !! j = Some rj.
Proof.
  intros Hsup Hin. apply list_elem_of_lookup in Hin. destruct Hin as [j Hj].
  exists j.
  assert (Hlt : (j < length pulled)%nat) by (eapply lookup_lt_Some, Hj).
  assert (He : enumerate (requests P) !! j = Some (i, rj)).
  { rewrite Hsup, lookup_app_l by exact Hlt. exact Hj. }
  apply enumerate_from_lookup in He. destruct He as [-> He].
  split; [lia | split; assumption].
Qed.

(** X3. The supply is read in order and once: in every state of a run the
    requests still to be read are the list without its first [k]
    elements, [k] being the number of tasks started; a request that is
    held, queued or in flight carries the payload of the position given
    by its index, below [k]; and so does every index in the results. *)
Theorem supply_is_read_in_order (now : Q) (evs : list (Event Response)) (s : State) :
  run evs (initial_state P now) = Continue s ∨ run evs (initial_state P now) = Break s →
  ∃ k : nat,
    requests_iter s = drop k (enumerate (requests P))
    ∧ (k ≤ length (requests P))%nat
    ∧ num_tasks_started (status_tracker s) = Z.of_nat k
    ∧ (∀ r, r ∈ live s →
            ∃ j, index r = Z.of_nat j ∧ (j < k)%nat
                 ∧ requests P !! j = Some (request_json r))
    ∧ (∀ i response, (i, response) ∈ results s →
                     ∃ j, i = Z.of_nat j ∧ (j < k)%nat).
Proof.
  intros Hrun. destruct (reachable_consistent now evs s Hrun) as [pulled Hc].
  destruct Hc as [Hsup Hst Hbal Hin Hsuc Hfail Herr Hlive Hres Hnd Hex].
  exists (length pulled). split; [ | split; [ | split; [exact Hst | split]]].
  - rewrite Hsup, drop_app_length. reflexivity.
  - rewrite <- (enumerate_from_length (requests P) 0).
    fold (enumerate (requests P)). rewrite Hsup, length_app. lia.
  - intros r Hr. apply (pulled_position pulled (requests_iter s)); auto.
  - intros i response Hi. destruct (Hres i response Hi) as (rj & Hp & _).
    destruct (pulled_position pulled (requests_iter s) i rj Hsup Hp) as (j & ? & ? & _).
    eauto.
Qed.


(** X5. In every state of a run no index occurs twice among the requests
    held, queued or in flight and the results: a request is in one place
    only, is never called twice at a time, and no result is recorded
    twice. *)
Theorem no_request_in_two_places (now : Q) (evs : list (Event Response)) (s : State) :
  run evs (initial_state P now) = Continue s ∨ run evs (initial_state P now) = Break s →
  NoDup ((index <$> option_list (next_request s)) ++ (index <$> retry_queue s)
         ++ (index <$> executor s) ++ (results s).*1).
Proof.
  intros Hrun. destruct (reachable_consistent now evs s Hrun) as [pulled Hc].
  pose proof (cons_nodup _ _ _ _ Hc) as Hnd. unfold live in Hnd.
  rewrite !fmap_app, <- !app_assoc in Hnd. exact Hnd.
Qed.

(** ** Ticks that submit nothing, ticks that raise *)

Lemma refilled_le_ceiling (available ceiling : Z) (seconds : Q) :
  refilled available ceiling seconds ≤ ceiling.
Proof. unfold refilled. lia. Qed.


Lemma get_next_request_executor (t : Q) (s s1 : State) :
  get_next_request t s = inr s1 → executor s1 = executor s ∧ pc s1 = pc s.
Proof.
  unfold get_next_request. intros H.
  destruct (next_request s); [inversion H; subst; auto | ].
  destruct (retry_queue s) as [ | r q]; [ | inversion H; subst; auto].
  destruct (requests_iter s) as [ | [i rj] rest]; [inversion H; subst; auto | ].
  destruct (num_tokens_consumed_from_request rj); inversion H; subst; auto.
Qed.

Lemma dispatch_validate (t_new t_update : Q) (e : Exception) (s s1 : State) :
  dispatch num_tokens_consumed_from_request P t_new t_update None s = inr s1 →
  (executor s1 = executor s →
   dispatch num_tokens_consumed_from_request P t_new t_update (Some e) s = inr s1)
  ∧ (executor s1 ≠ executor s →
     dispatch num_tokens_consumed_from_request P t_new t_update (Some e) s = inl e).
Proof.
  unfold dispatch. intros H.
  destruct (get_next_request t_new s) as [e0 | s0] eqn:Hget; [discriminate | ].
  destruct (get_next_request_executor _ _ _ Hget) as [Hx _].
  unfold submit_next_request in *.
  cbn [next_request update_capacity with_capacity] in *.
  destruct (next_request s0) as [r | ].
  - match type of H with
    | (if ?c then _ else _) = _ => destruct c
    end.
    + inversion H; subst s1. simpl. rewrite Hx. split.
      * intros Heq. exfalso. exact (app_singleton_neq _ _ Heq).
      * intros _. reflexivity.
    + inversion H; subst s1. simpl. rewrite Hx. split.
      * intros _. reflexivity.
      * intros Hne. exfalso. apply Hne. reflexivity.
  - inversion H; subst s1. simpl. rewrite Hx. split.
    + intros _. reflexivity.
    + intros Hne. exfalso. apply Hne. reflexivity.
Qed.

Lemma step_dispatch (t_new t_update : Q) (validate : option Exception) (s : State) :
  pc s = LoopTop →
  step (Dispatch t_new t_update validate) s
  = match dispatch num_tokens_consumed_from_request P t_new t_update validate s with
    | inl e => Raise e
    | inr s' => Continue (with_pc LoopCheck s')
    end.
Proof. intros Hpc. unfold step. rewrite Hpc. reflexivity. Qed.

(** X7. [api_token.validate] is consulted only by a tick that submits a
    call: a tick that submits nothing goes the same way whether the
    credentials are good or not, and a tick that would submit a call
    raises the credential error instead, which ends the run. *)
Theorem credentials_matter_only_on_submission (now t_new t_update : Q) (e : Exception)
    (evs : list (Event Response)) (s s1 : State) :
  run evs (initial_state P now) = Continue s → pc s = LoopTop →
  dispatch num_tokens_consumed_from_request P t_new t_update None s = inr s1 →
  (executor s1 = executor s →
   run (evs ++ [Dispatch t_new t_update (Some e)]) (initial_state P now)
   = run (evs ++ [Dispatch t_new t_update None]) (initial_state P now))
  ∧ (executor s1 ≠ executor s →
     process_api_requests num_tokens_consumed_from_request P now
       (evs ++ [Dispatch t_new t_update (Some e)])
     = Some (Throw e)).
Proof.
  intros Hrun Hpc Hd.
  destruct (dispatch_validate t_new t_update e s s1 Hd) as [Hsame Hraise].
  split.
  - intros Hx. rewrite !run_app, Hrun, !run_cons, !step_dispatch by exact Hpc.
    rewrite (Hsame Hx), Hd. reflexivity.
  - intros Hx. unfold process_api_requests.
    rewrite run_app, Hrun, run_cons, step_dispatch by exact Hpc.
    rewrite (Hraise Hx). reflexivity.
Qed.

(** X8. An exception raised by the cost estimator for the request that a
    tick reads from the supply ends the run with that exception. *)
Theorem estimator_error_ends_the_run (now t_new t_update : Q)
    (validate : option Exception) (evs : list (Event Response)) (s : State)
    (i : Z) (rj : RequestJson) (rest : list (Z * RequestJson)) (e : Exception) :
  run evs (initial_state P now) = Continue s → pc s = LoopTop →
  next_request s = None → retry_queue s = [] →
  requests_iter s = (i, rj) :: rest →
  num_tokens_consumed_from_request rj = inl e →
  process_api_requests num_tokens_consumed_from_request P now
    (evs ++ [Dispatch t_new t_update validate])
  = Some (Throw e).
Proof.
  intros Hrun Hpc Hnext Hretry Hiter Hest.
  unfold process_api_requests.
  rewrite run_app, Hrun, run_cons, step_dispatch by exact Hpc.
  unfold dispatch, get_next_request. rewrite Hnext, Hretry, Hiter, Hest.
  reflexivity.
Qed.

(** ** What only grows *)

Lemma grows_refl (s : State) : grows s s.
Proof. unfold grows. repeat split; try lia; reflexivity. Qed.

Lemma grows_trans (s1 s2 s3 : State) : grows s1 s2 → grows s2 s3 → grows s1 s3.
Proof.
  unfold grows. intros ((A1 & A2 & A3 & A4 & A5) & A6 & A7) ((B1 & B2 & B3 & B4 & B5) & B6 & B7).
  repeat split; try lia; etransitivity; eassumption.
Qed.

Lemma call_api_grows (self : APIRequest) (o : Outcome Response) (t : Q) (s : State) :
  grows s (call_api self o t s).
Proof.
  unfold grows, call_api.
  destruct o as [response | e].
  - simpl. repeat split; try lia.
    + apply prefix_app_r. reflexivity.
    + rewrite <- app_assoc. apply prefix_app_r. reflexivity.
  - destruct (handler_of (exc_class e)).
    + destruct (Qlt_le_dec (t - start_time self) (inject_Z 600));
        [destruct (Qlt_le_dec (inject_Z 60) (t - last_log_time self)) | ];
        simpl; repeat split; try lia; try reflexivity;
        rewrite <- ?app_assoc; apply prefix_app_r; reflexivity.
    + destruct (0 <? attempts_left self);
        simpl; repeat split; try lia; try reflexivity;
        rewrite <- ?app_assoc; apply prefix_app_r; reflexivity.
    + simpl; repeat split; try lia; try reflexivity;
        rewrite <- ?app_assoc; apply prefix_app_r; reflexivity.
    + simpl; repeat split; try lia; try reflexivity;
        rewrite <- ?app_assoc; apply prefix_app_r; reflexivity.
Qed.

Lemma dispatch_grows (t_new t_update : Q) (validate : option Exception) (s s' : State) :
  dispatch num_tokens_consumed_from_request P t_new t_update validate s = inr s' →
  grows s s'.
Proof.
  unfold dispatch, get_next_request, submit_next_request, grows. intros H.
  destruct (next_request s) as [r0 | ] eqn:Hnext.
  { cbn [next_request update_capacity with_capacity] in H. rewrite Hnext in H.
    destruct (admission_test r0 _); [destruct validate; [discriminate | ] | ];
      inversion H; subst s'; simpl; repeat split; try lia; reflexivity. }
  destruct (retry_queue s) as [ | r q].
  - destruct (requests_iter s) as [ | [i rj] rest].
    + cbn [next_request update_capacity with_capacity] in H. rewrite Hnext in H.
      inversion H; subst s'; simpl; repeat split; try lia; reflexivity.
    + destruct (num_tokens_consumed_from_request rj) as [e | tokens]; [discriminate | ].
      cbn [next_request update_capacity with_capacity with_tracker with_supply
           with_next_request] in H.
      destruct (admission_test _ _); [destruct validate; [discriminate | ] | ];
        inversion H; subst s'; simpl; repeat split; try lia; reflexivity.
  - cbn [next_request update_capacity with_capacity log with_next_request
         with_retry_queue] in H.
    destruct (admission_test _ _); [destruct validate; [discriminate | ] | ];
      inversion H; subst s'; simpl; repeat split; try lia; try reflexivity;
      apply prefix_app_r; reflexivity.
Qed.

Lemma step_grows (ev : Event Response) (s s' : State) :
  step ev s = Continue s' ∨ step ev s = Break s' → grows s s'.
Proof.
  intros Hstep.
  destruct ev as [t_new t_update validate | | n o t]; simpl in Hstep.
  - destruct (pc s); [ | destruct Hstep; discriminate].
    destruct (dispatch _ _ t_new t_update validate s) as [e | s1] eqn:Hd;
      [destruct Hstep; discriminate | ].
    apply dispatch_grows in Hd.
    destruct Hstep as [Hstep | Hstep]; inversion Hstep; subst s'. exact Hd.
  - destruct (pc s); [destruct Hstep; discriminate | ].
    destruct (all_tasks_finished s);
      destruct Hstep as [Hstep | Hstep]; inversion Hstep; subst s';
      apply (grows_refl s).
  - destruct (executor s !! n) as [r | ]; [ | destruct Hstep; discriminate].
    destruct Hstep as [Hstep | Hstep]; inversion Hstep; subst s'.
    apply (call_api_grows r o t (with_executor (delete n (executor s)) s)).
Qed.

(** X9. From any state of a run to any later one the counters of started,
    succeeded and failed tasks, of rate-limit errors and of API errors
    never go down, and the list of results and the log only get longer
    at the end: nothing recorded is ever taken back or changed. *)
Theorem nothing_recorded_is_taken_back (evs : list (Event Response)) (s s' : State) :
  run evs s = Continue s' ∨ run evs s = Break s' →
  (num_tasks_started (status_tracker s) ≤ num_tasks_started (status_tracker s')
   ∧ num_tasks_succeeded (status_tracker s) ≤ num_tasks_succeeded (status_tracker s')
   ∧ num_tasks_failed (status_tracker s) ≤ num_tasks_failed (status_tracker s')
   ∧ num_rate_limit_errors (status_tracker s)
     ≤ num_rate_limit_errors (status_tracker s')
   ∧ num_api_errors (status_tracker s) ≤ num_api_errors (status_tracker s'))
  ∧ results s `prefix_of` results s'
  ∧ logger s `prefix_of` logger s'.
Proof.
  revert s.
  induction evs as [ | ev evs IH]; intros s Hrun; simpl in Hrun.
  - destruct Hrun as [Hrun | Hrun]; inversion Hrun; subst. apply grows_refl.
  - destruct (step ev s) as [s1 | s1 | e | ] eqn:Hstep.
    + apply (grows_trans s s1 s'); [apply (step_grows ev); left; exact Hstep | ].
      apply IH, Hrun.
    + destruct Hrun as [Hrun | Hrun]; inversion Hrun; subst.
      apply (step_grows ev). right. exact Hstep.
    + destruct Hrun; discriminate.
    + destruct Hrun; discriminate.
Qed.

(** ** The cool-down *)

(** X10. The loop never sleeps for a negative time; after the cool-down at
    least 15 seconds have passed since the last rate-limit error; the
    sleep is skipped exactly when they had passed already, and lasts at
    most 15 seconds unless the clock has gone back. *)
Theorem cool_down_lasts_until_fifteen_seconds (now : Q) (s : State) :
  let last := time_of_last_rate_limit_error (status_tracker s) in
  match remaining_seconds_to_pause now s with
  | Some pause =>
      (0 < pause)%Q ∧ (now + pause - last == inject_Z 15)%Q
      ∧ (now - last < inject_Z 15)%Q
      ∧ ((last <= now)%Q → (pause <= inject_Z 15)%Q)
  | None => (inject_Z 15 <= now - last)%Q
  end
  ∧ (inject_Z 15 <= resume_time now s - last)%Q.
Proof.
  intros last. unfold resume_time, remaining_seconds_to_pause.
  fold last. unfold seconds_to_pause_after_rate_limit_error.
  destruct (Qlt_le_dec (now - last) (inject_Z 15)) as [Hlt | Hge].
  - assert (Heq : (now + (inject_Z 15 - (now - last)) - last == inject_Z 15)%Q) by ring.
    split; [ | rewrite Heq; apply Qle_refl].
    split; [ | split; [exact Heq | split; [exact Hlt | ]]].
    + unfold Qminus at 1. rewrite <- Qlt_minus_iff. exact Hlt.
    + intros Hle. apply elapsed_nonneg in Hle.
      apply Qle_minus_iff.
      assert (Hd : (inject_Z 15 + - (inject_Z 15 - (now - last)) == now - last)%Q) by ring.
      rewrite Hd. exact Hle.
  - split; exact Hge.
Qed.


(** ** Runs in which every call finishes within its tick *)

#[local] Abbreviation sequential_round :=
  (sequential_round num_tokens_consumed_from_request P).
#[local] Abbreviation sequential := (sequential num_tokens_consumed_from_request P).
#[local] Abbreviation between_rounds := (between_rounds (Response := Response) P).

Lemma enumerate_from_lookup_Some (l : list RequestJson) (i : Z) (k : nat) (x : RequestJson) :
  l !! k = Some x → enumerate_from i l !! k = Some (i + Z.of_nat k, x).
Proof.
  revert i k.
  induction l as [ | y l IH]; intros i k H; [discriminate | ].
  destruct k as [ | k]; simpl in *.
  - inversion H; subst. do 2 f_equal. lia.
  - rewrite (IH (i + 1) k H). do 2 f_equal. lia.
Qed.

(** A tick that reads a fresh request, whether it submits or drops it. *)
Lemma dispatch_fresh_any (t_new t_update : Q) (s : State) (i : Z) (rj : RequestJson)
    (rest : list (Z * RequestJson)) (tokens : Z) :
  next_request s = None → retry_queue s = [] →
  requests_iter s = (i, rj) :: rest →
  num_tokens_consumed_from_request rj = inr tokens →
  ∃ s1, dispatch num_tokens_consumed_from_request P t_new t_update None s = inr s1
        ∧ (retry_queue s1 = [] ∧ next_request s1 = None ∧ requests_iter s1 = rest
           ∧ requests_exhausted s1 = (i =? last_index P)
           ∧ pc s1 = pc s ∧ results s1 = results s)
        ∧ (num_tasks_started (status_tracker s1)
           = num_tasks_started (status_tracker s) + 1
           ∧ num_tasks_succeeded (status_tracker s1)
             = num_tasks_succeeded (status_tracker s))
        ∧ ((∃ r, executor s1 = executor s ++ [r]
                 ∧ num_tasks_in_progress (status_tracker s1)
                   = num_tasks_in_progress (status_tracker s) + 1
                 ∧ num_tasks_failed (status_tracker s1)
                   = num_tasks_failed (status_tracker s))
           ∨ (executor s1 = executor s
              ∧ num_tasks_in_progress (status_tracker s1)
                = num_tasks_in_progress (status_tracker s)
              ∧ num_tasks_failed (status_tracker s1)
                = num_tasks_failed (status_tracker s) + 1)).
Proof.
  intros Hnext Hretry Hiter Hest.
  unfold dispatch, get_next_request. rewrite Hnext, Hretry, Hiter, Hest.
  unfold submit_next_request.
  cbn [next_request update_capacity with_capacity with_tracker with_supply
       with_next_request].
  match goal with
  | |- ∃ _, (if ?c then _ else _) = _ ∧ _ => destruct c
  end.
  - eexists. split; [reflexivity | ]. simpl. rewrite Hretry.
    repeat split. left. eexists. repeat split.
  - eexists. split; [reflexivity | ]. simpl. rewrite Hretry.
    repeat split. right. repeat split; lia.
Qed.

(** A call whose outcome settles the request. *)
Lemma call_api_settles (self : APIRequest) (o : Outcome Response) (t : Q) (s : State) :
  settles o = true →
  let s' := call_api self o t s in
  let st := status_tracker s in
  let st' := status_tracker s' in
  (retry_queue s' = retry_queue s ∧ next_request s' = next_request s
   ∧ executor s' = executor s ∧ requests_iter s' = requests_iter s
   ∧ requests_exhausted s' = requests_exhausted s ∧ pc s' = pc s)
  ∧ num_tasks_started st' = num_tasks_started st
  ∧ num_tasks_in_progress st' = num_tasks_in_progress st - 1
  ∧ ((num_tasks_succeeded st' = num_tasks_succeeded st + 1
      ∧ num_tasks_failed st' = num_tasks_failed st
      ∧ length (results s') = S (length (results s)))
     ∨ (num_tasks_succeeded st' = num_tasks_succeeded st
        ∧ num_tasks_failed st' = num_tasks_failed st + 1
        ∧ results s' = results s)).
Proof.
  intros Hs. unfold call_api.
  destruct o as [response | e]; simpl in Hs.
  - simpl. repeat split. left. repeat split. rewrite length_app. simpl. lia.
  - destruct (handler_of (exc_class e)); try discriminate;
      simpl; repeat split; right; repeat split.
Qed.

Lemma sequential_round_step (i : nat) (t : Q) (o : Outcome Response) (s : State) :
  between_rounds i s → (i < length (requests P))%nat →
  (∀ rj, rj ∈ requests P → ∃ tokens, num_tokens_consumed_from_request rj = inr tokens) →
  settles o = true →
  ∃ s', (if (S i =? length (requests P))%nat
         then sequential_round t o s = Break s'
         else sequential_round t o s = Continue s' ∧ between_rounds (S i) s')
        ∧ (executor s' = [] ∧ retry_queue s' = [] ∧ next_request s' = None)
        ∧ (num_tasks_started (status_tracker s') = Z.of_nat (S i)
           ∧ num_tasks_in_progress (status_tracker s') = 0
           ∧ num_tasks_succeeded (status_tracker s')
             + num_tasks_failed (status_tracker s') = Z.of_nat (S i)
           ∧ num_tasks_succeeded (status_tracker s') = Z.of_nat (length (results s'))
           ∧ 0 ≤ num_tasks_failed (status_tracker s')).
Proof.
  intros ((Hpc & Hnext & Hretry & Hexec) & Hiter & Hexh & (Hst & Hin & Hsum & Hres & Hf))
    Hi Hest Hsettles.
  destruct (lookup_lt_is_Some_2 (requests P) i Hi) as [rj Hrj].
  destruct (Hest rj) as [tokens Htokens]; [eapply list_elem_of_lookup_2, Hrj | ].
  assert (Hiter' : requests_iter s
                   = (Z.of_nat i, rj) :: drop (S i) (enumerate (requests P))).
  { rewrite Hiter. apply drop_S.
    exact (enumerate_from_lookup_Some _ 0 i rj Hrj). }
  destruct (dispatch_fresh_any t t s _ _ _ _ Hnext Hretry Hiter' Htokens)
    as (s1 & Hd & (Hq1 & Hn1 & Hit1 & Hexh1 & Hpc1 & Hres1) & (Hst1 & Hsuc1) & Hcases).
  assert (Hstep1 : step (Dispatch t t None) s = Continue (with_pc LoopCheck s1)).
  { rewrite step_dispatch by exact Hpc. rewrite Hd. reflexivity. }
  assert (Hlast : (Z.of_nat i =? last_index P) = (S i =? length (requests P))%nat).
  { unfold last_index.
    destruct (Nat.eqb_spec (S i) (length (requests P))) as [He | Hne].
    - apply Z.eqb_eq. lia.
    - apply Z.eqb_neq. lia. }
  rewrite Hlast in Hexh1.
  assert (Hfinish : ∀ s2 : State,
            pc s2 = LoopCheck →
            requests_exhausted s2 = (S i =? length (requests P))%nat →
            num_tasks_in_progress (status_tracker s2) = 0 →
            step Check s2
            = if (S i =? length (requests P))%nat then Break s2
              else Continue (with_pc LoopTop s2)).
  { intros s2 Hp2 Hx2 Hin2. unfold step, all_tasks_finished.
    rewrite Hp2, Hx2, Hin2. destruct (S i =? length (requests P))%nat; reflexivity. }
  unfold sequential_round. rewrite Hstep1. cbn [executor with_pc].
  destruct Hcases as [(r & Hx1 & Hin1 & Hf1) | (Hx1 & Hin1 & Hf1)];
    rewrite Hexec in Hx1; cbn [app] in Hx1; rewrite Hx1.
  - set (s1' := with_executor [] (with_pc LoopCheck s1)).
    assert (Hstep2 : step (Complete 0 o t) (with_pc LoopCheck s1)
                     = Continue (call_api r o t s1')).
    { unfold step. cbn [executor with_pc]. rewrite Hx1. reflexivity. }
    rewrite Hstep2.
    destruct (call_api_settles r o t s1' Hsettles)
      as ((Hq2 & Hn2 & Hx2 & Hit2 & Hexh2 & Hpc2) & Hst2 & Hin2 & Hcount).
    set (s2 := call_api r o t s1') in *.
    assert (Hx2' : executor s2 = []).
    { rewrite Hx2. reflexivity. }
    assert (Hin2' : num_tasks_in_progress (status_tracker s2) = 0).
    { rewrite Hin2. subst s1'. cbn [status_tracker with_executor with_pc]. lia. }
    assert (Hcounts : num_tasks_succeeded (status_tracker s2)
                      + num_tasks_failed (status_tracker s2) = Z.of_nat (S i)
                      ∧ num_tasks_succeeded (status_tracker s2)
                        = Z.of_nat (length (results s2))
                      ∧ 0 ≤ num_tasks_failed (status_tracker s2)).
    { subst s1'. cbn [status_tracker results with_executor with_pc] in Hcount.
      destruct Hcount as [(Hs & Hf2 & Hl) | (Hs & Hf2 & Hl)];
        rewrite Hs, Hf2, Hl, ?Hres1; lia. }
    assert (Hst2' : num_tasks_started (status_tracker s2) = Z.of_nat (S i)).
    { rewrite Hst2. subst s1'. cbn [status_tracker with_executor with_pc]. lia. }
    rewrite (Hfinish s2) by (rewrite ?Hpc2, ?Hexh2; auto).
    destruct (S i =? length (requests P))%nat eqn:Hend.
    + exists s2. split; [reflexivity | ].
      split; [rewrite Hq2, Hn2; auto | ]. tauto.
    + exists (with_pc LoopTop s2). split.
      * split; [reflexivity | ].
        unfold between_rounds. simpl.
        rewrite Hq2, Hn2, Hx2', Hit2, Hexh2. simpl.
        rewrite Hq1, Hn1, Hit1, Hexh1. tauto.
      * simpl. rewrite Hq2, Hn2. simpl. rewrite Hq1, Hn1. tauto.
  - assert (Hin1' : num_tasks_in_progress (status_tracker s1) = 0) by lia.
    rewrite (Hfinish (with_pc LoopCheck s1)) by auto.
    destruct (S i =? length (requests P))%nat eqn:Hend.
    + exists (with_pc LoopCheck s1). split; [reflexivity | ]. simpl.
      rewrite Hx1, Hq1, Hn1, Hres1. repeat split; lia.
    + exists (with_pc LoopTop (with_pc LoopCheck s1)). split.
      * split; [reflexivity | ].
        unfold between_rounds. simpl.
        rewrite Hx1, Hq1, Hn1, Hit1, Hexh1, Hres1. repeat split; lia.
      * simpl. rewrite Hx1, Hq1, Hn1, Hres1. repeat split; lia.
Qed.

Lemma sequential_cons (t : Q) (o : Outcome Response)
    (rounds : list (Q * Outcome Response)) (s : State) :
  sequential ((t, o) :: rounds) s
  = match sequential_round t o s with
    | Continue s' => sequential rounds s'
    | other => other
    end.
Proof. reflexivity. Qed.

Lemma sequential_rounds (rounds : list (Q * Outcome Response)) :
  (∀ rj, rj ∈ requests P → ∃ tokens, num_tokens_consumed_from_request rj = inr tokens) →
  Forall (λ x, settles x.2 = true) rounds →
  ∀ (i : nat) (s : State),
    between_rounds i s →
    ((i + length rounds < length (requests P))%nat →
     ∃ s', sequential rounds s = Continue s'
           ∧ between_rounds (i + length rounds) s')
    ∧ ((i + length rounds = length (requests P))%nat → rounds ≠ [] →
       ∃ s', sequential rounds s = Break s'
             ∧ (executor s' = [] ∧ retry_queue s' = [] ∧ next_request s' = None)
             ∧ (num_tasks_started (status_tracker s')
                = Z.of_nat (length (requests P))
                ∧ num_tasks_in_progress (status_tracker s') = 0
                ∧ num_tasks_succeeded (status_tracker s')
                  + num_tasks_failed (status_tracker s')
                  = Z.of_nat (length (requests P))
                ∧ num_tasks_succeeded (status_tracker s')
                  = Z.of_nat (length (results s'))
                ∧ 0 ≤ num_tasks_failed (status_tracker s'))).
Proof.
  intros Hest Hall.
  induction Hall as [ | [t o] rounds Ho Hall IH]; intros i s Hs.
  - split.
    + intros _. exists s. split; [reflexivity | ]. rewrite Nat.add_0_r. exact Hs.
    + intros _ Hne. exfalso. apply Hne. reflexivity.
  - simpl in Ho. cbn [length].
    split.
    + intros Hlt.
      destruct (sequential_round_step i t o s Hs ltac:(lia) Hest Ho) as (s1 & Hround & _).
      destruct (Nat.eqb_spec (S i) (length (requests P))) as [He | Hne]; [lia | ].
      destruct Hround as [Hround Hs1].
      destruct (IH (S i) s1 Hs1) as [IHc _].
      destruct IHc as (s' & Hrun & Hs'); [lia | ].
      exists s'. split.
      * rewrite sequential_cons, Hround. exact Hrun.
      * replace (i + S (length rounds))%nat with (S i + length rounds)%nat by lia.
        exact Hs'.
    + intros Heq _.
      destruct (sequential_round_step i t o s Hs ltac:(lia) Hest Ho)
        as (s1 & Hround & Hempty & Hcount).
      destruct (Nat.eqb_spec (S i) (length (requests P))) as [He | Hne].
      * assert (rounds = []) by (destruct rounds; [reflexivity | simpl in Heq; lia]).
        subst rounds. exists s1. split.
        -- rewrite sequential_cons, Hround. reflexivity.
        -- rewrite <- He. split; assumption.
      * destruct Hround as [Hround Hs1].
        destruct (IH (S i) s1 Hs1) as [_ IHb].
        destruct IHb as (s' & Hrun & Hfacts); [lia | | ].
        { intros ->. simpl in Heq. lia. }
        exists s'. split; [ | exact Hfacts].
        rewrite sequential_cons, Hround. exact Hrun.
Qed.


(** ** Requests that are settled *)


End DispatcherFacts.

(** * The claims on concrete runs *)

(** C1 fails on the code.  Two requests of 60 tokens each, a ceiling of
    100 tokens per minute: the second request costs less than the ceiling
    and fails the admission test only because the first one has used up
    the capacity of the moment; it is not held for a later tick but
    dropped and recorded as failed with "Request size exceeded max
    tokens.", and the run ends with the aggregate error. *)
Theorem within_ceiling_candidate_is_dropped :
  ∃ s : State nat string,
    run tokens_of two_requests two_requests_schedule (initial_state two_requests 0)
    = Continue s
    ∧ tokens_of 60 = inr 60
    ∧ 60 ≤ max_tokens_per_minute two_requests
    ∧ next_request s = None
    ∧ retry_queue s = []
    ∧ index <$> executor s = [0]
    ∧ num_tasks_failed (status_tracker s) = 1
    ∧ error (status_tracker s) = Some max_tokens_error
    ∧ process_api_requests tokens_of two_requests 0
        (two_requests_schedule ++ two_requests_end)
      = Some (Throw (tasks_failed_error 1)).
Proof.
  eexists. split; [vm_compute; reflexivity | ].
  repeat split. unfold max_tokens_per_minute, two_requests. lia.
Qed.

(** C2 fails on the code.  After a request has been submitted at time 0
    under a ceiling of 60 tokens per minute, two ticks half a second
    apart submit nothing and span one second; the specification's refill
    would bring the token budget from 55 to 56, the code leaves it at
    55. *)
Lemma refill_lost_between_short_ticks :
  ∃ s0 s1 : State nat string,
    run tokens_of slow_refill slow_refill_submission (initial_state slow_refill 0)
    = Continue s0
    ∧ run tokens_of slow_refill slow_refill_idle s0 = Continue s1
    ∧ executor s1 = executor s0
    ∧ (last_update_time s1 - last_update_time s0 == 1)%Q
    ∧ available_token_capacity s0 = 55
    ∧ available_token_capacity s1 = 55
    ∧ (refilled_as_specified 55 60 1 == 56)%Q
    ∧ ¬ (inject_Z (available_token_capacity s1)
         == refilled_as_specified (available_token_capacity s0)
              (max_tokens_per_minute slow_refill)
              (last_update_time s1 - last_update_time s0))%Q.
Proof.
  eexists. eexists. split; [vm_compute; reflexivity | ].
  split; [vm_compute; reflexivity | ].
  repeat split. vm_compute. intros H. discriminate H.
Qed.

(** C3 fails on the code.  A request submitted with 5 attempts comes
    back from a rate-limit failure with 4 attempts left and is submitted
    again with 3. *)
Lemma readmission_after_rate_limit_costs_an_attempt :
  ∃ (s1 s2 : State nat string) (r r' : APIRequest nat),
    run tokens_of (one_request 5) rate_limited_schedule
      (initial_state (one_request 5) 0) = Continue s1
    ∧ num_rate_limit_errors (status_tracker s1) = 1
    ∧ retry_queue s1 = [r]
    ∧ attempts_left r = 4
    ∧ step tokens_of (one_request 5) readmission s1 = Continue s2
    ∧ executor s2 = [r']
    ∧ index r' = index r
    ∧ attempts_left r' = 3
    ∧ attempts_left r' ≠ attempts_left r.
Proof.
  eexists. eexists. eexists. eexists.
  split; [vm_compute; reflexivity | ].
  split; [reflexivity | ]. split; [reflexivity | ]. split; [reflexivity | ].
  split; [vm_compute; reflexivity | ].
  repeat split. simpl. lia.
Qed.


(** The sibling loop leaves at once when there is nothing to do. *)
Lemma langchain_empty_supply_returns :
  @LangChain.process_api_requests nat string []
    [LangChain.Dispatch; LangChain.Check]
  = Some (Return []).
Proof. reflexivity. Qed.

(** * Instances of the general results *)

Lemma rate_limit_retry_window_witness :
  exc_class rate_limit_error = RateLimitError
  ∧ (599 - start_time pending_request < inject_Z 600)%Q
  ∧ ∃ r',
      retry_queue
        (call_api pending_request (Raised rate_limit_error) 599
           (initial_state (one_request 5) 0 : State nat string))
      = [r']
      ∧ attempts_left r' = 4.
Proof.
  split; [reflexivity | ]. split; [reflexivity | ].
  destruct (rate_limit_retry_window pending_request rate_limit_error 599
              (initial_state (one_request 5) 0 : State nat string) eq_refl)
    as [[Hput _] _].
  destruct Hput as [(r' & Hq & _ & _ & _ & Ha & _) _]; [reflexivity | ].
  exists r'. split; [exact Hq | exact Ha].
Defined.



Lemma output_in_request_order_witness :
  answered tokens_of three_requests echoes three_requests_schedule
    (initial_state three_requests 0)
  ∧ process_api_requests tokens_of three_requests 0 three_requests_schedule
    = Some (Return [echo 7; echo 8; echo 9])
  ∧ length [echo 7; echo 8; echo 9] = length (requests three_requests)
  ∧ Forall2 echoes (requests three_requests) [echo 7; echo 8; echo 9].
Proof.
  assert (Hanswered : answered tokens_of three_requests echoes three_requests_schedule
                        (initial_state three_requests 0)).
  { vm_compute. repeat split. }
  assert (Hrun : process_api_requests tokens_of three_requests 0 three_requests_schedule
                 = Some (Return [echo 7; echo 8; echo 9])).
  { vm_compute. reflexivity. }
  split; [exact Hanswered | ]. split; [exact Hrun | ].
  exact (output_in_request_order tokens_of three_requests echoes 0
           three_requests_schedule _ Hanswered Hrun).
Defined.

Lemma every_submission_uses_an_attempt_witness :
  next_request (state_after tokens_of (one_request 5) 0 rate_limited_schedule) = None
  ∧ ∃ s' : State nat string,
      dispatch tokens_of (one_request 5) 2 2 None
        (state_after tokens_of (one_request 5) 0 rate_limited_schedule) = inr s'
      ∧ retry_queue s' = []
      ∧ executor s' = [with_attempts_left 3 pending_request].
Proof.
  split; [reflexivity | ].
  destruct (every_submission_uses_an_attempt tokens_of (one_request 5) 2 2
              (state_after tokens_of (one_request 5) 0 rate_limited_schedule
               : State nat string) eq_refl)
    as (_ & Hretry & _).
  destruct (Hretry pending_request []) as (s' & Hd & Hq & Hx);
    [vm_compute; reflexivity | vm_compute; reflexivity | ].
  exists s'. split; [exact Hd | ]. split; [exact Hq | exact Hx].
Defined.

Lemma idle_refill_is_truncated_per_tick_witness :
  nondecreasing_from
    (last_update_time (state_after tokens_of slow_refill 0 slow_refill_submission
                       : State nat string))
    [1 # 2; 1]%Q
  ∧ available_token_capacity
      (idle_updates slow_refill [1 # 2; 1]%Q
         (state_after tokens_of slow_refill 0 slow_refill_submission
          : State nat string))
    = Z.min (55 + refill_sum 60 0 [1 # 2; 1]%Q) 60
  ∧ refill_sum 60 0 [1 # 2; 1]%Q = 0
  ∧ refill 60 1 = 1.
Proof.
  assert (Hclock : nondecreasing_from
            (last_update_time (state_after tokens_of slow_refill 0 slow_refill_submission
                               : State nat string))
            [1 # 2; 1]%Q).
  { simpl. unfold Qle. simpl. lia. }
  split; [exact Hclock | ].
  destruct (idle_refill_is_truncated_per_tick slow_refill [1 # 2; 1]%Q
              (state_after tokens_of slow_refill 0 slow_refill_submission
               : State nat string))
    as (_ & (Htokens & _) & _).
  - simpl. lia.
  - simpl. lia.
  - vm_compute. discriminate.
  - vm_compute. discriminate.
  - exact Hclock.
  - split; [exact Htokens | ]. split; reflexivity.
Defined.

Lemma empty_supply_never_leaves_the_loop_witness :
  requests no_requests = []
  ∧ process_api_requests (Response := string) tokens_of no_requests 0
      (ticks [(0, 0, None); (1, 1, None)]%Q)
    = None.
Proof.
  split; [reflexivity | ].
  apply (empty_supply_never_leaves_the_loop tokens_of no_requests 0 eq_refl).
Defined.


(** * The cost estimator *)

Section EstimatorFacts.

Import CostEstimator.

Variable encode : string → list Z.

Lemma len_encode_nonneg (s : string) : 0 ≤ len_encode encode s.
Proof. unfold len_encode. lia. Qed.

Lemma fold_add_shift (l : list Z) (a : Z) :
  fold_left Z.add l a = a + fold_left Z.add l 0.
Proof.
  revert a.
  induction l as [ | x l IH]; intros a; simpl; [lia | ].
  rewrite (IH (a + x)), (IH (0 + x)). lia.
Qed.

Lemma sum_len_encode_cons (p : string) (ps : list string) :
  sum_len_encode encode (p :: ps) = len_encode encode p + sum_len_encode encode ps.
Proof. unfold sum_len_encode. simpl. apply fold_add_shift. Qed.

Lemma sum_len_encode_nonneg (ps : list string) : 0 ≤ sum_len_encode encode ps.
Proof.
  induction ps as [ | p ps IH]; [reflexivity | ].
  rewrite sum_len_encode_cons. pose proof (len_encode_nonneg p). lia.
Qed.

Lemma name_eqb (k : string) : String.eqb k "name" = true ↔ k = "name".
Proof. apply String.eqb_eq. Qed.

(** The items of a message never take more than one token off the
    count, and none if the message has no name. *)
Lemma message_items_bound (message : list (string * string)) (num_tokens : Z) :
  NoDup message.*1 →
  num_tokens - 1 ≤ message_items encode num_tokens message
  ∧ ("name" ∉ message.*1 → num_tokens ≤ message_items encode num_tokens message).
Proof.
  revert num_tokens.
  induction message as [ | [k v] message IH]; intros num_tokens Hnd.
  - simpl. split; [lia | intros _; lia].
  - rewrite fmap_cons in Hnd. apply NoDup_cons in Hnd. destruct Hnd as [Hk Hnd].
    unfold message_items in *. cbn [fold_left fst snd].
    pose proof (len_encode_nonneg v) as Hv.
    destruct (String.eqb k "name") eqn:Hname.
    + apply name_eqb in Hname. subst k.
      destruct (IH (num_tokens + len_encode encode v - 1) Hnd) as [_ IH2].
      specialize (IH2 Hk). split; [lia | ].
      intros Hnot. exfalso. apply Hnot. rewrite fmap_cons. left.
    + destruct (IH (num_tokens + len_encode encode v) Hnd) as [IH1 IH2].
      split; [lia | ].
      intros Hnot. rewrite fmap_cons in Hnot.
      apply not_elem_of_cons in Hnot. destruct Hnot as [_ Hnot].
      specialize (IH2 Hnot). lia.
Qed.

Lemma messages_fold_bound (msgs : list (list (string * string))) (num_tokens : Z) :
  keys_unique msgs →
  num_tokens + 3 * Z.of_nat (length msgs)
  ≤ fold_left (λ num_tokens message, message_items encode (num_tokens + 4) message)
      msgs num_tokens.
Proof.
  revert num_tokens.
  induction msgs as [ | message msgs IH]; intros num_tokens Hu.
  - simpl. lia.
  - apply Forall_cons in Hu. destruct Hu as [Hnd Hu].
    cbn [fold_left length].
    destruct (message_items_bound message (num_tokens + 4) Hnd) as [Hm _].
    specialize (IH (message_items encode (num_tokens + 4) message) Hu). lia.
Qed.

Lemma batch_sum (f : string → Z) (c : Z) (ps : list string) :
  fold_left Z.add (map (λ p, f p + c) ps) 0
  = fold_left Z.add (map f ps) 0 + c * Z.of_nat (length ps).
Proof.
  induction ps as [ | p ps IH]; [simpl; lia | ].
  cbn [map fold_left length].
  rewrite (fold_add_shift _ (0 + (f p + c))), (fold_add_shift _ (0 + f p)), IH. lia.
Qed.

(** X13. A chat request whose messages have unique keys costs at least two
    tokens, three more per message, and the completion. *)
Theorem chat_estimate_lower_bound (rq : RequestJson)
    (msgs : list (list (string * string))) :
  messages rq = Some msgs → keys_unique msgs →
  ∃ tokens,
    num_tokens_consumed_from_request encode rq ChatCompletion = inr tokens
    ∧ 2 + 3 * Z.of_nat (length msgs) + default 1 (n rq) * default 15 (max_tokens rq)
      ≤ tokens.
Proof.
  intros Hm Hu. unfold num_tokens_consumed_from_request. rewrite Hm.
  eexists. split; [reflexivity | ].
  pose proof (messages_fold_bound msgs 0 Hu) as H. unfold messages_tokens. lia.
Qed.

(** X14. The estimate is never negative when [n * max_tokens] is not and
    the messages have unique keys. *)
Theorem estimated_cost_is_nonnegative (rq : RequestJson) (task : Task) (tokens : Z) :
  0 ≤ default 1 (n rq) * default 15 (max_tokens rq) →
  (∀ msgs, messages rq = Some msgs → keys_unique msgs) →
  num_tokens_consumed_from_request encode rq task = inr tokens →
  0 ≤ tokens.
Proof.
  intros Hc Hu H. unfold num_tokens_consumed_from_request in H.
  destruct task as [ | | | name]; try discriminate.
  - destruct (prompt rq) as [[p | ps | ] | ]; inversion H; subst tokens.
    + pose proof (len_encode_nonneg p). lia.
    + pose proof (sum_len_encode_nonneg ps). nia.
  - destruct (messages rq) as [msgs | ] eqn:Hm; inversion H; subst tokens.
    pose proof (messages_fold_bound msgs 0 (Hu msgs eq_refl)) as Hb.
    unfold messages_tokens. lia.
  - destruct (input rq) as [[p | ps | ] | ]; inversion H; subst tokens.
    + apply len_encode_nonneg.
    + apply sum_len_encode_nonneg.
Qed.

(** X15. A completion request for a list of prompts costs the sum of the
    requests for each prompt alone; the empty list costs nothing. *)
Theorem completion_batch_is_sum (rq : RequestJson) (ps : list string) :
  num_tokens_consumed_from_request encode (batch_prompt rq ps) Completion
  = inr (fold_left Z.add
           (map (λ p, estimate_or_zero encode (single_prompt rq p) Completion) ps) 0)
  ∧ num_tokens_consumed_from_request encode (batch_prompt rq []) Completion = inr 0.
Proof.
  split.
  - unfold estimate_or_zero, num_tokens_consumed_from_request. simpl.
    rewrite (batch_sum (len_encode encode)). reflexivity.
  - unfold num_tokens_consumed_from_request. simpl. f_equal.
    unfold sum_len_encode. simpl. lia.
Qed.


End EstimatorFacts.

(** * mlflow/openai/utils.py *)

Section UtilsFacts.

Import Utils.

Lemma falsy_no_keys {A : Type} (params : option (gmap string A)) :
  truthy params = false → keys_of params = ∅.
Proof.
  destruct params as [p | ]; simpl; [ | reflexivity].
  intros H. apply negb_false_iff, bool_decide_eq_true in H. exact H.
Qed.

Lemma exclude_lookup {V W : Type} (params : option (gmap string V))
    (envs : gmap string W) (k : string) :
  _exclude_params_from_envs params envs !! k
  = if decide (k ∈ keys_of params) then None else envs !! k.
Proof.
  unfold _exclude_params_from_envs.
  destruct (truthy params) eqn:Ht.
  - rewrite map_lookup_filter.
    destruct (envs !! k) as [v | ]; simpl.
    + destruct (decide (k ∈ keys_of params)) as [Hin | Hnot].
      * rewrite option_guard_False; [reflexivity | ]. simpl. intros Hn. exact (Hn Hin).
      * rewrite option_guard_True; [reflexivity | exact Hnot].
    + destruct (decide (k ∈ keys_of params)); reflexivity.
  - rewrite (falsy_no_keys _ Ht).
    destruct (decide (k ∈ (∅ : gset string))) as [Hin | _]; [ | reflexivity].
    apply elem_of_empty in Hin. destruct Hin.
Qed.

(** X17. The result of [_exclude_params_from_envs] has exactly the entries
    of [envs] whose key is not a key of [params], with their values. *)
Theorem exclude_params_keeps_the_other_entries {V W : Type}
    (params : option (gmap string V)) (envs : gmap string W) :
  (∀ k v, _exclude_params_from_envs params envs !! k = Some v
          ↔ envs !! k = Some v ∧ k ∉ keys_of params)
  ∧ dom (_exclude_params_from_envs params envs) = dom envs ∖ keys_of params.
Proof.
  split.
  - intros k v. rewrite exclude_lookup.
    destruct (decide (k ∈ keys_of params)) as [Hin | Hnot].
    + split; [discriminate | ]. intros [_ Hn]. destruct (Hn Hin).
    + split; [intros H; split; assumption | intros [H _]; exact H].
  - apply set_eq. intros k.
    rewrite elem_of_difference, !elem_of_dom, exclude_lookup.
    destruct (decide (k ∈ keys_of params)) as [Hin | Hnot].
    + split; [intros [v Hv]; discriminate | intros [_ Hn]; destruct (Hn Hin)].
    + split; [intros H; split; assumption | intros [H _]; exact H].
Qed.

(** X18. Laying the parameters over the filtered environment gives the
    parameters laid over the whole environment: a key of [params] always
    gets the value from [params]. *)
Theorem params_override_envs {V : Type} (p envs : gmap string V) :
  p ∪ _exclude_params_from_envs (Some p) envs = p ∪ envs
  ∧ (∀ k v, p !! k = Some v →
            (p ∪ _exclude_params_from_envs (Some p) envs) !! k = Some v)
  ∧ _exclude_params_from_envs (Some p) (_exclude_params_from_envs (Some p) envs)
    = _exclude_params_from_envs (Some p) envs.
Proof.
  split; [ | split].
  - apply map_eq. intros k. rewrite !lookup_union, exclude_lookup. simpl.
    destruct (decide (k ∈ dom p)) as [Hin | Hnot].
    + apply elem_of_dom in Hin. destruct Hin as [v Hv]. rewrite Hv.
      destruct (envs !! k); reflexivity.
    + reflexivity.
  - intros k v Hv. rewrite lookup_union, Hv.
    destruct (_exclude_params_from_envs (Some p) envs !! k); reflexivity.
  - apply map_eq. intros k. rewrite !exclude_lookup.
    destruct (decide (k ∈ keys_of (Some p))); reflexivity.
Qed.

Lemma shared_key_iff {V W : Type} (model : gmap string V) (p : gmap string W) :
  existsb (λ key, bool_decide (key ∈ dom model)) (map_to_list p).*1 = true
  ↔ ∃ key, key ∈ dom p ∧ key ∈ dom model.
Proof.
  rewrite existsb_exists. split.
  - intros (key & Hin & Hm). apply bool_decide_eq_true in Hm.
    exists key. split; [ | exact Hm].
    apply list_elem_of_In, list_elem_of_fmap in Hin.
    destruct Hin as ([k v] & -> & Hkv). apply elem_of_map_to_list in Hkv.
    apply elem_of_dom. exists v. exact Hkv.
  - intros (key & Hp & Hm). exists key. split.
    + apply elem_of_dom in Hp. destruct Hp as [v Hv].
      apply list_elem_of_In, list_elem_of_fmap. exists (key, v).
      split; [reflexivity | apply elem_of_map_to_list; exact Hv].
    + apply bool_decide_eq_true. exact Hm.
Qed.

(** X19. [_validate_model_params] returns without raising exactly when no
    key of [params] is a key of the model and [batch_size] is not given
    for the task [chat.completions]; a shared key is reported first. *)
Theorem validate_model_params_accepts_iff {V W : Type} (task : string)
    (model : gmap string V) (params : option (gmap string W)) :
  (_validate_model_params task model params = None
   ↔ keys_of params ## dom model
     ∧ ¬ ("batch_size" ∈ keys_of params ∧ task = "chat.completions"))
  ∧ ((∃ key, key ∈ keys_of params ∧ key ∈ dom model) →
     _validate_model_params task model params
     = Some (ModelKeysInParams (map_to_list model).*1)).
Proof.
  unfold _validate_model_params.
  destruct params as [p | ]; simpl.
  2:{ split; [ | intros (key & Hk & _); apply elem_of_empty in Hk; destruct Hk].
      split; [intros _ | reflexivity].
      split; [apply disjoint_empty_l | ].
      intros [Hb _]. apply elem_of_empty in Hb. destruct Hb. }
  destruct (bool_decide (dom p = ∅)) eqn:Hempty; simpl.
  { apply bool_decide_eq_true in Hempty. rewrite Hempty.
    split; [ | intros (key & Hk & _); apply elem_of_empty in Hk; destruct Hk].
    split; [intros _ | reflexivity].
    split; [apply disjoint_empty_l | ].
    intros [Hb _]. apply elem_of_empty in Hb. destruct Hb. }
  destruct (existsb (λ key, bool_decide (key ∈ dom model)) (map_to_list p).*1)
    eqn:Hshared.
  - apply shared_key_iff in Hshared. destruct Hshared as (key & Hp & Hm).
    split; [ | reflexivity].
    split; [discriminate | ].
    intros [Hdisj _]. exfalso. apply elem_of_disjoint in Hdisj.
    exact (Hdisj key Hp Hm).
  - assert (Hdisj : dom p ## dom model).
    { apply elem_of_disjoint. intros key Hp Hm.
      assert (Ht : existsb (λ key, bool_decide (key ∈ dom model)) (map_to_list p).*1
                   = true) by (apply shared_key_iff; eauto).
      rewrite Hshared in Ht. discriminate. }
    split.
    2:{ intros (key & Hp & Hm). exfalso. apply elem_of_disjoint in Hdisj.
        exact (Hdisj key Hp Hm). }
    destruct (bool_decide ("batch_size" ∈ dom p)) eqn:Hb;
      destruct (String.eqb task "chat.completions") eqn:Ht; simpl.
    + apply bool_decide_eq_true in Hb. apply String.eqb_eq in Ht.
      split; [discriminate | ]. intros [_ Hn]. exfalso. apply Hn. split; assumption.
    + apply String.eqb_neq in Ht.
      split; [intros _ | reflexivity]. split; [exact Hdisj | ].
      intros [_ Heq]. exact (Ht Heq).
    + apply bool_decide_eq_false in Hb.
      split; [intros _ | reflexivity]. split; [exact Hdisj | ].
      intros [Hin _]. exact (Hb Hin).
    + apply bool_decide_eq_false in Hb.
      split; [intros _ | reflexivity]. split; [exact Hdisj | ].
      intros [Hin _]. exact (Hb Hin).
Qed.

End UtilsFacts.

(** * _OAITokenHolder *)

Section TokenHolderFacts.

Import Utils.

(** X20. A holder that has just been made needs no token when a key is set
    in [openai.api_key] or in the environment, raises when there is no key
    and the API type is not Azure AD, and otherwise asks the credential:
    the token it gets becomes the key, a failure to authenticate is
    raised as an MlflowException. *)
Theorem validate_after_init (api_type : string) (api_key env : option string)
    (azure_identity : bool) (h : OAITokenHolder) (k : option string) (now : Q)
    (get_token : GetToken) :
  init api_type api_key env azure_identity = inr (h, k) →
  (key_set api_key = true ∨ is_Some env →
   validate h k now get_token = inr (h, k))
  ∧ (key_set api_key = false → env = None →
     validate h k now get_token
     = if is_azure api_type then
         match get_token with
         | Acquired t => inr (with_token t h, Some (token t))
         | ClientAuthenticationError message => inl (token_not_acquired message)
         | GetTokenRaises e => inl e
         end
       else inl key_not_set).
Proof.
  unfold init, validate, is_azure, with_token.
  set (azure := String.eqb api_type "azure_ad" || String.eqb api_type "azuread").
  intros Hinit. split.
  - intros Hkey.
    destruct (key_set api_key) eqn:Hset.
    + destruct env as [v | ]; simpl in Hinit.
      * rewrite andb_false_r in Hinit. inversion Hinit; subst. reflexivity.
      * rewrite andb_false_r in Hinit. inversion Hinit; subst. reflexivity.
    + destruct Hkey as [Hkey | [v ->]]; [discriminate | ]. simpl in Hinit.
      rewrite andb_false_r in Hinit. inversion Hinit; subst. reflexivity.
  - intros Hset ->. rewrite Hset in Hinit. simpl in Hinit.
    rewrite andb_true_r in Hinit.
    destruct azure.
    + destruct azure_identity; inversion Hinit; subst. simpl.
      destruct get_token; reflexivity.
    + inversion Hinit; subst. reflexivity.
Qed.

(** X21. A token that has been acquired is used again, without asking the
    credential, by every later call made at least 60 seconds before it
    expires. *)
Theorem acquired_token_is_reused (h : OAITokenHolder) (k : option string)
    (now now' : Q) (t : AccessToken) (get_token : GetToken) :
  _key_configured h = false → _is_azure_ad h = true → _credential h = true →
  _api_token h = None
  ∨ (∃ t0, _api_token h = Some t0 ∧ (inject_Z (expires_on t0) < now + inject_Z 60)%Q) →
  (now' + inject_Z 60 <= inject_Z (expires_on t))%Q →
  validate_all [(now, Acquired t); (now', get_token)] h k
  = inr (with_token t h, Some (token t)).
Proof.
  intros Hkey Hazure Hcred Hstale Hfresh.
  unfold validate_all, validate, with_token. rewrite Hkey, Hazure, Hcred.
  assert (Hs : match _api_token h with
               | None => true
               | Some t0 =>
                   if Qlt_le_dec (inject_Z (expires_on t0)) (now + inject_Z 60)
                   then true else false
               end = true).
  { destruct Hstale as [-> | (t0 & -> & Hlt)]; [reflexivity | ].
    destruct (Qlt_le_dec (inject_Z (expires_on t0)) (now + inject_Z 60)) as [_ | Hge];
      [reflexivity | ].
    exfalso. exact (Qlt_not_le _ _ Hlt Hge). }
  rewrite Hs. cbn [_key_configured _is_azure_ad _api_token _credential].
  rewrite ?Hkey, ?Hazure.
  destruct (Qlt_le_dec (inject_Z (expires_on t)) (now' + inject_Z 60)) as [Hlt | _];
    [ | reflexivity].
  exfalso. exact (Qlt_not_le _ _ Hlt Hfresh).
Qed.

Lemma validate_invariant (h h' : OAITokenHolder) (k k' : option string) (now : Q)
    (get_token : GetToken) :
  validate h k now get_token = inr (h', k') →
  (_key_configured h' = _key_configured h ∧ _is_azure_ad h' = _is_azure_ad h
   ∧ _credential h' = _credential h)
  ∧ (_key_configured h = true → h' = h ∧ k' = k)
  ∧ (_key_configured h = true ∨ _is_azure_ad h = true)
  ∧ (key_is_token h k → key_is_token h' k').
Proof.
  unfold validate, key_is_token. intros H.
  destruct (_key_configured h) eqn:Hkey.
  { inversion H; subst. rewrite Hkey. repeat split; auto. }
  destruct (_is_azure_ad h) eqn:Hazure; [ | discriminate].
  destruct (match _api_token h with
            | None => true
            | Some t =>
                if Qlt_le_dec (inject_Z (expires_on t)) (now + inject_Z 60)
                then true else false
            end).
  - destruct (_credential h) eqn:Hcred; [ | discriminate].
    destruct get_token as [t | message | e]; inversion H; subst. simpl.
    repeat split; auto; try discriminate.
    all: intros; simplify_eq; reflexivity.
  - inversion H; subst. rewrite Hkey, Hazure. repeat split; auto; discriminate.
Qed.

(** X22. Over any sequence of calls that do not raise: the flags of the
    holder never change; a holder with a configured key is left as it is,
    and so is the key; and once [openai.api_key] is the token held, it
    stays the token held. *)
Theorem validate_all_keeps_key_and_token_together
    (calls : list (Q * GetToken)) (h h' : OAITokenHolder) (k k' : option string) :
  validate_all calls h k = inr (h', k') →
  (_key_configured h' = _key_configured h ∧ _is_azure_ad h' = _is_azure_ad h
   ∧ _credential h' = _credential h)
  ∧ (_key_configured h = true → h' = h ∧ k' = k)
  ∧ (key_is_token h k → key_is_token h' k').
Proof.
  revert h k.
  induction calls as [ | [now get_token] calls IH]; intros h k H; simpl in H.
  - inversion H; subst. repeat split; auto.
  - destruct (validate h k now get_token) as [e | [h1 k1]] eqn:Hv; [discriminate | ].
    destruct (validate_invariant _ _ _ _ _ _ Hv) as ((F1 & F2 & F3) & Hsame & _ & Hlink).
    destruct (IH h1 k1 H) as ((G1 & G2 & G3) & Hsame' & Hlink').
    split; [repeat split; congruence | ]. split.
    + intros Hkey. destruct (Hsame Hkey) as [-> ->]. apply Hsame', Hkey.
    + intros Hl. apply Hlink', Hlink, Hl.
Qed.

End TokenHolderFacts.

(** * The LangChain loop *)

Section LangChainFacts.
Import LangChain LangChainInv.

Context {RequestJson Response : Type}.
Variable requests : list RequestJson.

#[local] Abbreviation LState := (@State RequestJson Response).

Lemma langchain_initial_kept : kept requests (initial_state requests : LState).
Proof. constructor; simpl; try reflexivity; lia. Qed.

Lemma langchain_dispatch_kept (s : LState) :
  kept requests s → kept requests (submit_next_request (get_next_request s)).
Proof.
  intros [Hq Hn H0 Hsup Hbal Herr Hfl].
  unfold get_next_request. rewrite Hn, Hq.
  destruct (requests_iter s) as [ | [i rj] rest] eqn:Hiter.
  - unfold submit_next_request. rewrite Hn.
    constructor; try assumption. rewrite Hiter. exact Hsup.
  - unfold submit_next_request. cbn [next_request].
    constructor; cbn [retry_queue next_request status_tracker requests_iter executor
      start_task num_tasks_started num_tasks_in_progress num_tasks_succeeded
      num_tasks_failed num_api_errors]; try reflexivity; try lia.
    + assert (Hlook : enumerate requests
                        !! Z.to_nat (num_tasks_started (status_tracker s))
                      = Some (i, rj)).
      { rewrite <- (Nat.add_0_r (Z.to_nat _)), <- lookup_drop, <- Hsup. reflexivity. }
      rewrite (drop_S _ _ _ Hlook) in Hsup.
      replace (Z.to_nat (num_tasks_started (status_tracker s) + 1))
        with (S (Z.to_nat (num_tasks_started (status_tracker s)))) by lia.
      congruence.
    + rewrite length_app. simpl. lia.
Qed.

Lemma langchain_complete_kept (s : LState) (n : nat) (r : APIRequest)
    (o : option Response) :
  kept requests s → executor s !! n = Some r →
  kept requests
    (call_api r o
       (mkState (retry_queue s) (status_tracker s) (next_request s) (results s)
          (requests_iter s) (delete n (executor s)))).
Proof.
  intros [Hq Hn H0 Hsup Hbal Herr Hfl] Hlook.
  pose proof (lookup_lt_Some _ _ _ Hlook) as Hlt.
  assert (Hlen : length (delete n (executor s)) = (length (executor s) - 1)%nat).
  { rewrite length_delete; [lia | rewrite Hlook; eauto]. }
  destruct o as [response | ]; constructor;
    cbn [call_api retry_queue next_request status_tracker requests_iter executor
      complete_task increment_num_api_errors num_tasks_started num_tasks_in_progress
      num_tasks_succeeded num_tasks_failed num_api_errors];
    try assumption; lia.
Qed.

Lemma langchain_run_kept (evs : list (@Event Response)) :
  ∀ (at_check : bool) (s s' : LState) (left : bool),
    kept requests s → run evs at_check s = Some (s', left) →
    kept requests s' ∧ (left = true → num_tasks_in_progress (status_tracker s') = 0).
Proof.
  induction evs as [ | ev evs IH]; intros at_check s s' left Hk Hrun.
  - simpl in Hrun. injection Hrun as <- <-. split; [exact Hk | discriminate].
  - destruct ev as [ | | n o]; cbn [run] in Hrun.
    + destruct at_check; [discriminate | ].
      exact (IH _ _ _ _ (langchain_dispatch_kept s Hk) Hrun).
    + destruct at_check; [ | discriminate].
      destruct (all_tasks_finished s) eqn:Hfin.
      * injection Hrun as <- <-. split; [exact Hk | ].
        intros _. unfold all_tasks_finished in Hfin. lia.
      * exact (IH _ _ _ _ Hk Hrun).
    + destruct (executor s !! n) as [r | ] eqn:Hlook; [ | discriminate].
      exact (IH _ _ _ _ (langchain_complete_kept s n r o Hk Hlook) Hrun).
Qed.

(** ** The sibling never retries *)

(** X23. In every state of a run of the LangChain loop the retry queue is
    empty and no request is held back: a request is read from the list in
    order, counted as started and submitted in the same tick, and a call
    that raises is counted as an API error and as failed at once.  The
    started requests are the ones in flight, succeeded or failed, and
    when the loop is left nothing is in flight. *)
Theorem langchain_never_retries (evs : list (@Event Response)) (s : LState)
    (left : bool) :
  run evs false (initial_state requests) = Some (s, left) →
  retry_queue s = []
  ∧ next_request s = None
  ∧ requests_iter s
    = drop (Z.to_nat (num_tasks_started (status_tracker s))) (enumerate requests)
  ∧ num_tasks_started (status_tracker s)
    = Z.of_nat (length (executor s))
      + num_tasks_succeeded (status_tracker s)
      + num_tasks_failed (status_tracker s)
  ∧ num_api_errors (status_tracker s) = num_tasks_failed (status_tracker s)
  ∧ (left = true → executor s = []).
Proof.
  intros Hrun.
  destruct (langchain_run_kept evs false _ s left langchain_initial_kept Hrun)
    as [[Hq Hn H0 Hsup Hbal Herr Hfl] Hleft].
  repeat split; try assumption.
  - lia.
  - intros Hl. specialize (Hleft Hl).
    destruct (executor s); [reflexivity | simpl in Hfl; lia].
Qed.

(** ** The sibling does not wait for the end of the list *)

(** X24. The LangChain loop tests only the counter of requests in progress.
    When the first call is over before the first test, whatever its
    outcome, the loop is left after one tick: one request has been
    started and the rest of the list has not been read. *)
Theorem langchain_leaves_after_first_call (rj : RequestJson) (rest : list RequestJson)
    (o : option Response) (evs : list (@Event Response)) :
  ∃ s : LState,
    run (Dispatch :: Complete 0 o :: Check :: evs) false (initial_state (rj :: rest))
    = Some (s, true)
    ∧ num_tasks_started (status_tracker s) = 1
    ∧ requests_iter s = enumerate_from 1 rest
    ∧ executor s = [].
Proof.
  destruct o as [response | ]; eexists; (split; [reflexivity | ]);
    simpl; repeat split.
Qed.

End LangChainFacts.

(** * More instances *)

Lemma retry_queue_goes_first_witness :
  next_request (state_after tokens_of (one_request 5) 0 rate_limited_schedule
                : State nat string) = None
  ∧ retry_queue (state_after tokens_of (one_request 5) 0 rate_limited_schedule
                 : State nat string) = [pending_request]
  ∧ dispatch tokens_of (one_request 5) 2 2 None
      (state_after tokens_of (one_request 5) 0 rate_limited_schedule)
    = inr (with_pc LoopTop
             (state_after tokens_of (one_request 5) 0
                (rate_limited_schedule ++ [readmission]) : State nat string))
  ∧ retry_queue (state_after tokens_of (one_request 5) 0
                   (rate_limited_schedule ++ [readmission]) : State nat string) = []
  ∧ num_tasks_started
      (status_tracker (state_after tokens_of (one_request 5) 0
                         (rate_limited_schedule ++ [readmission]) : State nat string))
    = 1.
Proof.
  assert (Hnext : next_request (state_after tokens_of (one_request 5) 0
                                  rate_limited_schedule : State nat string) = None)
    by reflexivity.
  assert (Hq : retry_queue (state_after tokens_of (one_request 5) 0
                              rate_limited_schedule : State nat string)
               = [pending_request])
    by (vm_compute; reflexivity).
  assert (Hd : dispatch tokens_of (one_request 5) 2 2 None
                 (state_after tokens_of (one_request 5) 0 rate_limited_schedule)
               = inr (with_pc LoopTop
                        (state_after tokens_of (one_request 5) 0
                           (rate_limited_schedule ++ [readmission]) : State nat string)))
    by (vm_compute; reflexivity).
  split; [exact Hnext | ]. split; [exact Hq | ]. split; [exact Hd | ].
  destruct (retry_queue_goes_first tokens_of (one_request 5) 2 2 None _ _
              pending_request [] Hnext Hq Hd) as (Hq' & _ & _ & _ & Hst & _).
  split; [exact Hq' | ]. change 1 with (num_tasks_started (status_tracker
    (state_after tokens_of (one_request 5) 0 rate_limited_schedule : State nat string))).
  exact Hst.
Defined.

Lemma supply_is_read_in_order_witness :
  run tokens_of two_requests two_requests_schedule
    (initial_state two_requests 0 : State nat string)
  = Continue (state_after tokens_of two_requests 0 two_requests_schedule)
  ∧ ∃ k : nat,
      requests_iter (state_after tokens_of two_requests 0 two_requests_schedule
                     : State nat string)
      = drop k (enumerate (requests two_requests))
      ∧ num_tasks_started
          (status_tracker (state_after tokens_of two_requests 0 two_requests_schedule
                           : State nat string))
        = Z.of_nat k.
Proof.
  assert (Hrun : run tokens_of two_requests two_requests_schedule
                   (initial_state two_requests 0)
                 = Continue (state_after tokens_of two_requests 0 two_requests_schedule
                             : State nat string))
    by (vm_compute; reflexivity).
  split; [exact Hrun | ].
  destruct (supply_is_read_in_order tokens_of two_requests 0 two_requests_schedule _
              (or_introl Hrun)) as (k & Hsup & _ & Hst & _).
  exists k. split; [exact Hsup | exact Hst].
Defined.


Lemma no_request_in_two_places_witness :
  run tokens_of three_requests three_requests_schedule
    (initial_state three_requests 0 : State nat string)
  = Break (state_after tokens_of three_requests 0 three_requests_schedule)
  ∧ NoDup (results (state_after tokens_of three_requests 0 three_requests_schedule
                    : State nat string)).*1.
Proof.
  assert (Hrun : run tokens_of three_requests three_requests_schedule
                   (initial_state three_requests 0)
                 = Break (state_after tokens_of three_requests 0 three_requests_schedule
                          : State nat string))
    by (vm_compute; reflexivity).
  split; [exact Hrun | ].
  pose proof (no_request_in_two_places tokens_of three_requests 0
                three_requests_schedule _ (or_intror Hrun)) as Hnd.
  apply NoDup_app in Hnd. destruct Hnd as (_ & _ & Hnd).
  apply NoDup_app in Hnd. destruct Hnd as (_ & _ & Hnd).
  apply NoDup_app in Hnd. destruct Hnd as (_ & _ & Hnd).
  exact Hnd.
Defined.


Lemma credentials_matter_only_on_submission_witness :
  dispatch tokens_of (one_request 5) 0 0 None
    (initial_state (one_request 5) 0 : State nat string)
  = inr (with_pc LoopTop
           (state_after tokens_of (one_request 5) 0 [Dispatch 0 0 None] : State nat string))
  ∧ executor (with_pc LoopTop
                (state_after tokens_of (one_request 5) 0 [Dispatch 0 0 None]
                 : State nat string))
    ≠ executor (initial_state (one_request 5) 0 : State nat string)
  ∧ process_api_requests (Response := string) tokens_of (one_request 5) 0
      [Dispatch 0 0 (Some Utils.key_not_set)]
    = Some (Throw Utils.key_not_set).
Proof.
  assert (Hd : dispatch tokens_of (one_request 5) 0 0 None (initial_state (one_request 5) 0)
               = inr (with_pc LoopTop
                        (state_after tokens_of (one_request 5) 0 [Dispatch 0 0 None]
                         : State nat string)))
    by (vm_compute; reflexivity).
  assert (Hx : executor (with_pc LoopTop
                           (state_after tokens_of (one_request 5) 0 [Dispatch 0 0 None]
                            : State nat string))
               ≠ executor (initial_state (one_request 5) 0 : State nat string))
    by (vm_compute; discriminate).
  split; [exact Hd | ]. split; [exact Hx | ].
  pose proof (proj2 (credentials_matter_only_on_submission tokens_of (one_request 5)
                       0 0 0 Utils.key_not_set [] (initial_state (one_request 5) 0)
                       (with_pc LoopTop
                          (state_after tokens_of (one_request 5) 0 [Dispatch 0 0 None]))
                       eq_refl eq_refl Hd) Hx) as Hthrow.
  cbn [app] in Hthrow. exact Hthrow.
Defined.

Lemma estimator_error_ends_the_run_witness :
  completion_cost (CostEstimator.mkRequestJson None None None None None)
  = inl (CostEstimator.key_error "prompt")
  ∧ process_api_requests (Response := string) completion_cost missing_prompt 0
      [Dispatch 0 0 None]
    = Some (Throw (CostEstimator.key_error "prompt")).
Proof.
  split; [reflexivity | ].
  exact (estimator_error_ends_the_run completion_cost missing_prompt 0 0 0 None []
           (initial_state missing_prompt 0) 0 _ [] _
           eq_refl eq_refl eq_refl eq_refl eq_refl eq_refl).
Defined.

Lemma nothing_recorded_is_taken_back_witness :
  run tokens_of three_requests (drop 5 three_requests_schedule)
    (state_after tokens_of three_requests 0 (take 5 three_requests_schedule)
     : State nat string)
  = Break (state_after tokens_of three_requests 0 three_requests_schedule)
  ∧ results (state_after tokens_of three_requests 0 (take 5 three_requests_schedule)
             : State nat string)
    `prefix_of` results (state_after tokens_of three_requests 0 three_requests_schedule)
  ∧ logger (state_after tokens_of three_requests 0 (take 5 three_requests_schedule)
            : State nat string)
    `prefix_of` logger (state_after tokens_of three_requests 0 three_requests_schedule).
Proof.
  assert (Hrun : run tokens_of three_requests (drop 5 three_requests_schedule)
                   (state_after tokens_of three_requests 0
                      (take 5 three_requests_schedule))
                 = Break (state_after tokens_of three_requests 0 three_requests_schedule
                          : State nat string))
    by (vm_compute; reflexivity).
  split; [exact Hrun | ].
  exact (proj2 (nothing_recorded_is_taken_back tokens_of three_requests _ _ _
                  (or_intror Hrun))).
Defined.



Lemma chat_request_keys_unique :
  CostEstimator.keys_unique [[("role", "user"); ("content", "hi")]].
Proof.
  unfold CostEstimator.keys_unique.
  apply (bool_decide_unpack _). vm_compute. exact I.
Defined.

Lemma chat_estimate_lower_bound_witness :
  CostEstimator.keys_unique [[("role", "user"); ("content", "hi")]]
  ∧ ∃ tokens,
      CostEstimator.num_tokens_consumed_from_request one_token_per_char chat_request
        CostEstimator.ChatCompletion = inr tokens
      ∧ 25 ≤ tokens.
Proof.
  split; [exact chat_request_keys_unique | ].
  exact (chat_estimate_lower_bound one_token_per_char chat_request _ eq_refl
           chat_request_keys_unique).
Defined.

Lemma estimated_cost_is_nonnegative_witness :
  CostEstimator.num_tokens_consumed_from_request one_token_per_char chat_request
    CostEstimator.ChatCompletion = inr 32
  ∧ 0 ≤ 32.
Proof.
  assert (He : CostEstimator.num_tokens_consumed_from_request one_token_per_char
                 chat_request CostEstimator.ChatCompletion = inr 32)
    by reflexivity.
  split; [exact He | ].
  apply (estimated_cost_is_nonnegative one_token_per_char chat_request CostEstimator.ChatCompletion 32).
  - simpl. lia.
  - intros msgs Hm. injection Hm as <-. exact chat_request_keys_unique.
  - exact He.
Defined.

Lemma validate_after_init_witness :
  Utils.init "azure_ad" None None true = inr (azure_holder, None)
  ∧ Utils.validate azure_holder None 0 (Utils.Acquired azure_token)
    = inr (Utils.with_token azure_token azure_holder, Some "token").
Proof.
  assert (Hinit : Utils.init "azure_ad" None None true = inr (azure_holder, None))
    by reflexivity.
  split; [exact Hinit | ].
  exact (proj2 (validate_after_init "azure_ad" None None true azure_holder None 0
                  (Utils.Acquired azure_token) Hinit) eq_refl eq_refl).
Defined.

Lemma acquired_token_is_reused_witness :
  (100 + inject_Z 60 <= inject_Z (Utils.expires_on azure_token))%Q
  ∧ Utils.validate_all
      [(0, Utils.Acquired azure_token); (100, Utils.GetTokenRaises timeout_error)]%Q
      azure_holder None
    = inr (Utils.with_token azure_token azure_holder, Some "token").
Proof.
  assert (Hfresh : (100 + inject_Z 60 <= inject_Z (Utils.expires_on azure_token))%Q).
  { unfold Qle. simpl. lia. }
  split; [exact Hfresh | ].
  exact (acquired_token_is_reused azure_holder None 0 100 azure_token
           (Utils.GetTokenRaises timeout_error) eq_refl eq_refl eq_refl
           (or_introl eq_refl) Hfresh).
Defined.

Lemma validate_all_keeps_key_and_token_together_witness :
  Utils.validate_all [(0, Utils.Acquired azure_token)]%Q azure_holder None
  = inr (Utils.with_token azure_token azure_holder, Some "token")
  ∧ Utils.key_is_token (Utils.with_token azure_token azure_holder) (Some "token").
Proof.
  assert (Hv : Utils.validate_all [(0, Utils.Acquired azure_token)]%Q azure_holder None
               = inr (Utils.with_token azure_token azure_holder, Some "token"))
    by reflexivity.
  split; [exact Hv | ].
  apply (validate_all_keeps_key_and_token_together _ _ _ _ _ Hv).
  intros t Ht. discriminate Ht.
Defined.

Lemma langchain_never_retries_witness :
  ∃ s : @LangChain.State nat string,
    LangChain.run langchain_schedule false (LangChain.initial_state [7; 8]%nat)
    = Some (s, true)
    ∧ LangChain.retry_queue s = []
    ∧ LangChain.num_api_errors (LangChain.status_tracker s) = 1
    ∧ LangChain.executor s = [].
Proof.
  eexists. split; [reflexivity | ].
  destruct (langchain_never_retries [7; 8]%nat langchain_schedule _ true eq_refl)
    as (Hq & _ & _ & _ & _ & Hx).
  split; [exact Hq | ]. split; [reflexivity | exact (Hx eq_refl)].
Defined.
